(** * google_sql_databases: the filter pipeline, the projector and the
      state-reconciliation check

    A shallow embedding of
    [mmv1/third_party/terraform/data_sources/data_source_sql_databases.go]
    ([applyFilterOnDatabases], [regexMatch], [flattenDatabases],
    [dataSourceSqlDatabasesRead]), of the acceptance-test helpers
    ([checkDatabaseFieldsMatchForDataSourceStateAndResourceState],
    [checkDatabaseResourceAbsentInDataSourceAfterFilterApllied] and the two
    checks composed of them), and of the read of
    [data_source_google_app_engine_default_service_account.go].

    Conventions.
    - A Go slice is an [option (list A)]: [None] is the nil slice, [Some []]
      the empty slice made by [make(..., 0)].
    - A Go [(value, error)] result is a pair whose second component is an
      [option error]; [None] is the nil error.
    - A Go [map[string]string] is a [gmap string string]; reading a missing
      key gives the empty string.
    - [regexp.MatchString] belongs to the Go standard library.  The pipeline
      is parametric in it; [Regexp.MatchString] is an executable model of a
      fragment of its syntax, used to run the pipeline on concrete inputs. *)

From stdpp Require Import gmap strings list fin_maps pretty.
From Stdlib Require Import Ascii ZArith Lia.

Local Open Scope string_scope.

(** ** Go values *)

Definition error := string.

Abbreviation slice A := (option (list A)) (only parsing).

Definition len {A} (s : slice A) : nat :=
  match s with
  | None => 0
  | Some l => length l
  end.

(** The elements a [range] loop visits. *)
Definition elems {A} (s : slice A) : list A :=
  match s with
  | None => []
  | Some l => l
  end.

(** [strings.HasPrefix] and [strings.Contains]. *)
Fixpoint hasPrefix (p s : string) : bool :=
  match p, s with
  | EmptyString, _ => true
  | String a p', String b s' => Ascii.eqb a b && hasPrefix p' s'
  | String _ _, EmptyString => false
  end.

Fixpoint contains (s sub : string) : bool :=
  hasPrefix sub s ||
  match s with
  | EmptyString => false
  | String _ s' => contains s' sub
  end.

(** ** A model of [regexp.MatchString] *)

Module Regexp.

(** Regular expressions over bytes.  A character class is a list of
    inclusive ranges, possibly negated. *)
Inductive re : Type :=
| Void
| Eps
| Cls (neg : bool) (rs : list (ascii * ascii))
| Cat (a b : re)
| Alt (a b : re)
| Star (a : re).

Definition in_range (c : ascii) (r : ascii * ascii) : bool :=
  Nat.leb (nat_of_ascii (fst r)) (nat_of_ascii c) && Nat.leb (nat_of_ascii c) (nat_of_ascii (snd r)).

Definition cls_mem (neg : bool) (rs : list (ascii * ascii)) (c : ascii) : bool :=
  xorb neg (existsb (in_range c) rs).

Fixpoint nullable (r : re) : bool :=
  match r with
  | Void => false
  | Eps => true
  | Cls _ _ => false
  | Cat a b => nullable a && nullable b
  | Alt a b => nullable a || nullable b
  | Star _ => true
  end.

(** Brzozowski derivative. *)
Fixpoint deriv (c : ascii) (r : re) : re :=
  match r with
  | Void => Void
  | Eps => Void
  | Cls neg rs => if cls_mem neg rs c then Eps else Void
  | Cat a b =>
      if nullable a then Alt (Cat (deriv c a) b) (deriv c b)
      else Cat (deriv c a) b
  | Alt a b => Alt (deriv c a) (deriv c b)
  | Star a => Cat (deriv c a) (Star a)
  end.

(** The language of an expression, against which the matcher is checked. *)
Inductive lang : re → string → Prop :=
| lang_eps : lang Eps ""
| lang_cls neg rs c : cls_mem neg rs c = true → lang (Cls neg rs) (String c "")
| lang_cat a b s1 s2 : lang a s1 → lang b s2 → lang (Cat a b) (s1 +:+ s2)
| lang_alt_l a b s : lang a s → lang (Alt a b) s
| lang_alt_r a b s : lang b s → lang (Alt a b) s
| lang_star_nil a : lang (Star a) ""
| lang_star_app a s1 s2 : lang a s1 → lang (Star a) s2 → lang (Star a) (s1 +:+ s2).

(** Some prefix of [s] is in the language of [r]. *)
Fixpoint matchPrefix (r : re) (s : string) : bool :=
  nullable r ||
  match s with
  | EmptyString => false
  | String c s' => matchPrefix (deriv c r) s'
  end.

(** Some substring of [s] is in the language of [r]: [MatchString] is
    not anchored. *)
Fixpoint matchAnywhere (r : re) (s : string) : bool :=
  matchPrefix r s ||
  match s with
  | EmptyString => false
  | String _ s' => matchAnywhere r s'
  end.

(** *** Parsing

    One pass over the pattern with a stack of open groups, as in
    [regexp/syntax].  The fragment: literals, [.], bracket classes with
    ranges and negation, [\d], [\w], [\s], escaped punctuation, groups,
    [|], and the postfix operators [*], [+], [?] with an optional lazy
    marker.  Anchors, counted repetition, flags and the other escapes are
    outside the fragment and are rejected. *)

Record frame : Type := Frame {
  alts : list re;   (* finished branches, last first *)
  cur : list re     (* items of the open branch, last first *)
}.

Inductive repState : Type := NoRep | Rep | RepLazy.

Inductive mode : Type :=
| MNormal
| MEscape
| MClassOpen
| MClass (neg first : bool) (items : list (ascii * ascii))
         (pend : option ascii) (dash esc : bool).

Record pstate : Type := PState {
  stack : list frame;
  rep : repState;
  pmode : mode
}.

Definition branch (items : list re) : re :=
  match rev items with
  | [] => Eps
  | x :: xs => fold_left Cat xs x
  end.

Definition group (f : frame) : re :=
  fold_left (fun acc b => Alt b acc) (alts f) (branch (cur f)).

Definition dotClass : re := Cls true [("010"%char, "010"%char)].
Definition digitRanges : list (ascii * ascii) := [("0"%char, "9"%char)].
Definition wordRanges : list (ascii * ascii) :=
  [("0"%char, "9"%char); ("A"%char, "Z"%char); ("a"%char, "z"%char); ("_"%char, "_"%char)].
Definition spaceRanges : list (ascii * ascii) :=
  [("009"%char, "010"%char); ("012"%char, "013"%char); (" "%char, " "%char)].

Definition isAlnum (c : ascii) : bool :=
  existsb (in_range c) [("0"%char, "9"%char); ("A"%char, "Z"%char); ("a"%char, "z"%char)].

Definition pushItem (r : re) (st : list frame) : option (list frame) :=
  match st with
  | [] => None
  | f :: rest => Some (Frame (alts f) (r :: cur f) :: rest)
  end.

Definition pendRanges (pend : option ascii) (dash : bool) : list (ascii * ascii) :=
  match pend with
  | None => []
  | Some a => if dash then [(a, a); ("-"%char, "-"%char)] else [(a, a)]
  end.

(** A literal byte inside a bracket class. *)
Definition classLit (escaped : bool) (c : ascii) (neg : bool)
    (items : list (ascii * ascii)) (pend : option ascii) (dash : bool) : option mode :=
  match pend, dash with
  | Some a, true =>
      if Nat.leb (nat_of_ascii a) (nat_of_ascii c)
      then Some (MClass neg false (items ++ [(a, c)]) None false false)
      else None
  | Some a, false =>
      if negb escaped && Ascii.eqb c "-"
      then Some (MClass neg false items pend true false)
      else Some (MClass neg false (items ++ [(a, a)]) (Some c) false false)
  | None, _ => Some (MClass neg false items (Some c) false false)
  end.

Definition step (p : pstate) (c : ascii) : option pstate :=
  match pmode p with
  | MNormal =>
      if Ascii.eqb c "(" then Some (PState (Frame [] [] :: stack p) NoRep MNormal)
      else if Ascii.eqb c ")" then
        match stack p with
        | f :: g :: rest => Some (PState (Frame (alts g) (group f :: cur g) :: rest) NoRep MNormal)
        | _ => None
        end
      else if Ascii.eqb c "|" then
        match stack p with
        | f :: rest => Some (PState (Frame (branch (cur f) :: alts f) [] :: rest) NoRep MNormal)
        | [] => None
        end
      else if Ascii.eqb c "*" || Ascii.eqb c "+" || Ascii.eqb c "?" then
        match rep p, stack p with
        | NoRep, Frame al (x :: xs) :: rest =>
            let x' := if Ascii.eqb c "*" then Star x
                      else if Ascii.eqb c "+" then Cat x (Star x)
                      else Alt x Eps in
            Some (PState (Frame al (x' :: xs) :: rest) Rep MNormal)
        | Rep, _ => if Ascii.eqb c "?" then Some (PState (stack p) RepLazy MNormal) else None
        | _, _ => None
        end
      else if Ascii.eqb c "[" then Some (PState (stack p) NoRep MClassOpen)
      else if Ascii.eqb c "\" then Some (PState (stack p) NoRep MEscape)
      else if Ascii.eqb c "." then
        st ← pushItem dotClass (stack p); Some (PState st NoRep MNormal)
      else if Ascii.eqb c "^" || Ascii.eqb c "$" || Ascii.eqb c "{" || Ascii.eqb c "}" then None
      else st ← pushItem (Cls false [(c, c)]) (stack p); Some (PState st NoRep MNormal)
  | MEscape =>
      if Ascii.eqb c "d" then st ← pushItem (Cls false digitRanges) (stack p); Some (PState st NoRep MNormal)
      else if Ascii.eqb c "w" then st ← pushItem (Cls false wordRanges) (stack p); Some (PState st NoRep MNormal)
      else if Ascii.eqb c "s" then st ← pushItem (Cls false spaceRanges) (stack p); Some (PState st NoRep MNormal)
      else if isAlnum c then None
      else st ← pushItem (Cls false [(c, c)]) (stack p); Some (PState st NoRep MNormal)
  | MClassOpen =>
      if Ascii.eqb c "^" then Some (PState (stack p) NoRep (MClass true true [] None false false))
      else if Ascii.eqb c "\" then Some (PState (stack p) NoRep (MClass false false [] None false true))
      else m ← classLit false c false [] None false; Some (PState (stack p) NoRep m)
  | MClass neg first items pend dash esc =>
      if esc then
        m ← classLit true c neg items pend dash; Some (PState (stack p) NoRep m)
      else if Ascii.eqb c "\" then
        Some (PState (stack p) NoRep (MClass neg false items pend dash true))
      else if Ascii.eqb c "]" && negb first then
        st ← pushItem (Cls neg (items ++ pendRanges pend dash)) (stack p);
        Some (PState st NoRep MNormal)
      else
        m ← classLit false c neg items pend dash; Some (PState (stack p) NoRep m)
  end.

Fixpoint run (p : pstate) (s : string) : option pstate :=
  match s with
  | EmptyString => Some p
  | String c s' => p' ← step p c; run p' s'
  end.

(** [regexp.Compile]: [None] is a compile error. *)
Definition compile (pattern : string) : option re :=
  match run (PState [Frame [] []] NoRep MNormal) pattern with
  | Some (PState [f] _ MNormal) => Some (group f)
  | _ => None
  end.

(** [regexp.MatchString(pattern, s)]: [None] is a non-nil error (the
    pattern does not compile), [Some b] is [(b, nil)]. *)
Definition MatchString (pattern s : string) : option bool :=
  r ← compile pattern; Some (matchAnywhere r s).

End Regexp.

(** ** Records and filter clauses *)

(** The fields of [sqladmin.Database] the data source reads. *)
Record Database : Type := mkDatabase {
  Name : string;
  Instance : string;
  Project : string;
  Charset : string;
  Collation : string;
  SelfLink : string
}.

(** One element of the ["filters"] list, as the schema materialises it: the
    required ["name"] and the two string lists, each present and possibly
    empty. *)
Record Filter : Type := mkFilter {
  name : string;
  values : list string;
  exclude_values : list string
}.

(** An entry of the ["databases"] attribute: a [map[string]interface{}]
    whose values are all strings. *)
Abbreviation OutputRecord := (gmap string string) (only parsing).

(** ** The filter pipeline *)

Section Pipeline.

(** [regexp.MatchString]; [None] is a compile error. *)
Variable MatchString : string → string → option bool.

(** The first loop of [regexMatch]: [b = b || match] over ["values"].
    [inr] is the early return on a pattern that does not compile. *)
Fixpoint includeLoop (regexes : list string) (field : string) (b : bool) : bool + error :=
  match regexes with
  | [] => inl b
  | regex :: rest =>
      match MatchString regex field with
      | None => inr ("Invalid regex " +:+ regex)
      | Some m => includeLoop rest field (b || m)
      end
  end.

(** The second loop of [regexMatch], over ["exclude_values"]. *)
Fixpoint excludeLoop (regexes : list string) (field : string) (include : bool)
    : bool * option error :=
  match regexes with
  | [] => (include, None)
  | regex :: rest =>
      match MatchString regex field with
      | None => (include, Some ("Invalid regex " +:+ regex))
      | Some m => excludeLoop rest field (if m then false else include)
      end
  end.

Definition regexMatch (filter : Filter) (field : string) (include : bool)
    : bool * option error :=
  match includeLoop (values filter) field false with
  | inr err => (include, Some err)
  | inl b =>
      let include :=
        if Nat.ltb 0 (length (values filter)) then include && b else include in
      (* exclude has higher priority than include *)
      excludeLoop (exclude_values filter) field include
  end.

(** The [switch filter["name"]]: the field of the record a clause reads,
    [None] in the [default] case. *)
Definition fieldOf (filter : Filter) (d : Database) : option string :=
  if String.eqb (name filter) "name" then Some (Name d)
  else if String.eqb (name filter) "charset" then Some (Charset d)
  else if String.eqb (name filter) "collation" then Some (Collation d)
  else None.

(** The inner loop of [applyFilterOnDatabases] for one record.  A [nil]
    clause is skipped, a false [include] breaks out of the loop, an error
    returns from the whole function. *)
Fixpoint filterLoop (d : Database) (databaseFilters : list (option Filter))
    (include : bool) : bool * option error :=
  match databaseFilters with
  | [] => (include, None)
  | None :: rest => filterLoop d rest include
  | Some filter :: rest =>
      if negb include then (include, None)
      else
        match fieldOf filter d with
        | Some field =>
            match regexMatch filter field include with
            | (_, Some err) => (include, Some err)
            | (i, None) => filterLoop d rest i
            end
        | None => (include, Some "Invalid filter")
        end
  end.

(** The outer loop; [filteredDatabases] is the accumulator. *)
Fixpoint databasesLoop (databases : list Database) (databaseFilters : list (option Filter))
    (filteredDatabases : list Database) : list Database * option error :=
  match databases with
  | [] => (filteredDatabases, None)
  | d :: rest =>
      match filterLoop d databaseFilters true with
      | (_, Some err) => (filteredDatabases, Some err)
      | (include, None) =>
          databasesLoop rest databaseFilters
            (if include then (filteredDatabases ++ [d])%list else filteredDatabases)
      end
  end.

Definition applyFilterOnDatabases (databases : slice Database)
    (databaseFilters : list (option Filter)) : slice Database * option error :=
  if Nat.eqb (len databases) 0 then (databases, None)
  else
    let (filteredDatabases, err) := databasesLoop (elems databases) databaseFilters [] in
    (Some filteredDatabases, err).

(** *** The filter as the specification words it *)

Definition spec_matches (field pattern : string) : bool :=
  match MatchString pattern field with
  | Some true => true
  | _ => false
  end.

(** Include evaluation, then exclude evaluation, on a field value: some
    include pattern matches unless there are none, and no exclude pattern
    matches. *)
Definition clauseVerdict (f : Filter) (v : string) : bool :=
  (match values f with
   | [] => true
   | ps => existsb (spec_matches v) ps
   end)
  && negb (existsb (spec_matches v) (exclude_values f)).

(** A clause evaluates to "include" on a record: its field is one of the
    three filterable ones and the verdict on that field's value is true.
    An absent clause constrains nothing. *)
Definition spec_clause_includes (d : Database) (clause : option Filter) : bool :=
  match clause with
  | None => true
  | Some f =>
      match fieldOf f d with
      | None => false
      | Some v => clauseVerdict f v
      end
  end.

Definition spec_survives (clauses : list (option Filter)) (d : Database) : bool :=
  forallb (spec_clause_includes d) clauses.

(** The first pattern of a list that does not compile, if any. *)
Definition firstMalformed (patterns : list string) (field : string) : option string :=
  List.find (fun p => match MatchString p field with None => true | Some _ => false end)
    patterns.

(** The patterns of a clause in the order [regexMatch] evaluates them. *)
Definition patternsOf (f : Filter) : list string :=
  (values f ++ exclude_values f)%list.

(** The ways a clause can be invalid for a record, with the message of
    the error each raises: a field name outside the three filterable
    ones, or a pattern that does not compile. *)
Definition clauseError (f : Filter) (d : Database) : option error :=
  match fieldOf f d with
  | None => Some "Invalid filter"
  | Some v =>
      match firstMalformed (patternsOf f) v with
      | Some p => Some ("Invalid regex " +:+ p)
      | None => None
      end
  end.

End Pipeline.

(** ** The projector *)

Definition flattenDatabase (rawDatabase : Database) : OutputRecord :=
  <["self_link" := SelfLink rawDatabase]>
  (<["collation" := Collation rawDatabase]>
  (<["charset" := Charset rawDatabase]>
  (<["project" := Project rawDatabase]>
  (<["instance" := Instance rawDatabase]>
  (<["name" := Name rawDatabase]> ∅))))).

Definition flattenDatabases (fetchedDatabases : slice Database) : slice OutputRecord :=
  match fetchedDatabases with
  | None => Some []
  | Some l =>
      Some (fold_left (fun databases rawDatabase => (databases ++ [flattenDatabase rawDatabase])%list) l [])
  end.

(** ** The read operation *)

(** The part of [schema.ResourceData] the read operation touches. *)
Record ResourceData : Type := mkResourceData {
  rd_instance : string;                (* d.Get("instance") *)
  rd_filters : list (option Filter);   (* d.Get("filters") *)
  rd_databases : slice OutputRecord;   (* written by d.Set("databases", ...) *)
  rd_id : string                       (* written by d.SetId *)
}.

Section Read.

Variable MatchString : string → string → option bool.

(** The provider helpers and the remote call, which live outside this
    file.  [databasesList userAgent project instance] is the outcome of
    the retried [Databases.List(...).Do()]: the [Items] of the response
    and the error. *)
Variable generateUserAgentString : ResourceData → string * option error.
Variable getProject : ResourceData → string * option error.
Variable databasesList : string → string → string → slice Database * option error.
Variable handleNotFoundError : error → ResourceData → string → ResourceData * option error.
(** The [%q] verb. *)
Variable quote : string → string.

(** [d.Set] of a list of string-valued maps conforms to the declared
    schema, so its error branch is not reachable and is left out. *)
Definition dataSourceSqlDatabasesRead (d : ResourceData) : ResourceData * option error :=
  match generateUserAgentString d with
  | (_, Some err) => (d, Some err)
  | (userAgent, None) =>
  match getProject d with
  | (_, Some err) => (d, Some err)
  | (project, None) =>
  match databasesList userAgent project (rd_instance d) with
  | (_, Some err) =>
      handleNotFoundError err d ("Databases in " +:+ quote (rd_instance d) +:+ " instance")
  | (items, None) =>
      let (filteredDatabases, err) :=
        match rd_filters d with
        | [] => (items, None)     (* GetOk reports an empty list as unset *)
        | v => applyFilterOnDatabases MatchString items v
        end in
      match err with
      | Some e => (d, Some e)
      | None =>
          (mkResourceData (rd_instance d) (rd_filters d)
             (flattenDatabases filteredDatabases)
             ("projects/" +:+ project +:+ "/instances/" +:+ rd_instance d +:+ "/101"),
           None)
      end
  end end end.

(** The steps before the filter succeeded for the resource data [d], the
    remote list returning [items]. *)
Definition fetched (d : ResourceData) (items : slice Database) : Prop :=
  ∃ userAgent project,
    generateUserAgentString d = (userAgent, None)
    ∧ getProject d = (project, None)
    ∧ databasesList userAgent project (rd_instance d) = (items, None).

End Read.

(** ** The state-reconciliation check of the acceptance tests *)

(** Reading a Go map: the zero value for a missing key. *)
Definition get (m : gmap string string) (k : string) : string :=
  default "" (m !! k).

Definition digit (c : ascii) : option Z :=
  let n := Z.of_nat (nat_of_ascii c) in
  if (48 <=? n)%Z && (n <=? 57)%Z then Some (n - 48)%Z else None.

Fixpoint digitsValue (s : string) (acc : Z) : option Z :=
  match s with
  | EmptyString => Some acc
  | String c s' => d ← digit c; digitsValue s' (acc * 10 + d)%Z
  end.

(** [strconv.Atoi]: an optional sign and at least one decimal digit, the
    value within the 64-bit [int]; [None] is the error. *)
Definition Atoi (s : string) : option Z :=
  match s with
  | EmptyString => None
  | String c rest =>
      let '(neg, body) :=
        if Ascii.eqb c "-" then (true, rest)
        else if Ascii.eqb c "+" then (false, rest)
        else (false, s) in
      match body with
      | EmptyString => None
      | _ =>
          v ← digitsValue body 0;
          let n := if neg : bool then (- v)%Z else v in
          if (- 2 ^ 63 <=? n)%Z && (n <=? 2 ^ 63 - 1)%Z then Some n else None
      end
  end.

(** [strconv.Itoa]. *)
Definition Itoa (i : Z) : string := pretty i.

Definition newline : string := String "010"%char "".

(** [k[len(k)-1:]]; [None] is the run-time panic on the empty string. *)
Fixpoint lastByte (k : string) : option string :=
  match k with
  | EmptyString => None
  | String c EmptyString => Some (String c EmptyString)
  | String _ k' => lastByte k'
  end.

Definition entryKey (index k : string) : string :=
  "databases." +:+ index +:+ "." +:+ k.

(** The search for the entry named like the resource: the last match wins. *)
Definition findIndex (dsAttr rsAttr : gmap string string) (totalInstances : Z) : string :=
  fold_left
    (fun index i =>
       if String.eqb (get dsAttr ("databases." +:+ Itoa i +:+ ".name")) (get rsAttr "name")
       then Itoa i else index)
    (seqZ 0 totalInstances) "-1".

Definition isBlankOrZero (s : string) : bool :=
  String.eqb s "" || String.eqb s "0".

Definition mismatchLine (k actual want : string) : string :=
  k +:+ " is " +:+ actual +:+ "; want " +:+ want +:+ newline.

(** The loop over the resource attributes, in the order [range] visits
    them.  [None] is a panic. *)
Fixpoint fieldsLoop (dsAttr : gmap string string) (index : string)
    (ignoreFields : gset string) (kvs : list (string * string)) (errMsg : string)
    : option string :=
  match kvs with
  | [] => Some errMsg
  | (k, v) :: rest =>
      if bool_decide (k ∈ ignoreFields) then fieldsLoop dsAttr index ignoreFields rest errMsg
      else if String.eqb k "%" then fieldsLoop dsAttr index ignoreFields rest errMsg
      else
        let actual := get dsAttr (entryKey index k) in
        if negb (String.eqb actual v) then
          (* ignore data sources where an empty list is being compared
             against a null list *)
          match lastByte k with
          | None => None
          | Some suffix =>
              if String.eqb suffix "#" && isBlankOrZero actual && isBlankOrZero v
              then fieldsLoop dsAttr index ignoreFields rest errMsg
              else fieldsLoop dsAttr index ignoreFields rest
                     (errMsg +:+ mismatchLine k actual v)
          end
        else fieldsLoop dsAttr index ignoreFields rest errMsg
  end.

(** The result of a call that may panic. *)
Inductive outcome : Type :=
| Returns (err : option error)
| Panics.

(** [order] is the order in which [range rsAttr] yields the entries of
    [rsAttr]; Go leaves it unspecified. *)
Definition checkDatabaseFieldsMatchForDataSourceStateAndResourceState
    (dsAttr rsAttr : gmap string string) (ignoreFields : gset string)
    (order : list (string * string)) : outcome :=
  match Atoi (get dsAttr "databases.#") with
  | None => Returns (Some "Couldn't convert length of instances list to integer")
  | Some totalInstances =>
      let index := findIndex dsAttr rsAttr totalInstances in
      if String.eqb index "-1"
      then Returns (Some "The newly created intance is not found in the data source")
      else
        match fieldsLoop dsAttr index ignoreFields order "" with
        | None => Panics
        | Some errMsg =>
            if negb (String.eqb errMsg "") then Returns (Some errMsg) else Returns None
        end
  end.

(** *** The check as the specification words it *)

Definition endsInHash (k : string) : Prop := ∃ k', k = k' +:+ "#".

Definition representsEmpty (s : string) : Prop := s = "0" ∨ s = "".

(** A field agrees: equal values, or a field whose name ends in [#] with
    both sides empty. *)
Definition fieldAgrees (k actual want : string) : Prop :=
  actual = want ∨ (endsInHash k ∧ representsEmpty actual ∧ representsEmpty want).

(** The same test as a function, for filtering the mismatches out. *)
Definition fieldAgreesb (k actual want : string) : bool :=
  String.eqb actual want
  || (match lastByte k with Some suffix => String.eqb suffix "#" | None => false end
      && isBlankOrZero actual && isBlankOrZero want).

Definition checkedField (ignoreFields : gset string) (k : string) : bool :=
  negb (bool_decide (k ∈ ignoreFields)) && negb (String.eqb k "%").

Definition mismatched (dsAttr : gmap string string) (index : string)
    (ignoreFields : gset string) (kv : string * string) : bool :=
  checkedField ignoreFields (fst kv)
  && negb (fieldAgreesb (fst kv) (get dsAttr (entryKey index (fst kv))) (snd kv)).

(** One line per mismatched field. *)
Definition mismatchReport (dsAttr : gmap string string) (index : string)
    (ignoreFields : gset string) (kvs : list (string * string)) : string :=
  fold_right
    (fun kv acc => mismatchLine (fst kv) (get dsAttr (entryKey index (fst kv))) (snd kv) +:+ acc)
    "" (List.filter (mismatched dsAttr index ignoreFields) kvs).

(** *** The absence check and the composed checks *)

Definition presentMessage : error :=
  "The resource is present in data source event after filter applied".
Definition notFoundMessage : error :=
  "The newly created intance is not found in the data source".
Definition countMessage : error :=
  "Couldn't convert length of instances list to integer".

(** The loop of [checkDatabaseResourceAbsentInDataSourceAfterFilterApllied]:
    it returns at the first entry named like the resource. *)
Fixpoint absentLoop (dsAttr rsAttr : gmap string string) (positions : list Z) : option error :=
  match positions with
  | [] => None
  | i :: rest =>
      if String.eqb (get dsAttr ("databases." +:+ Itoa i +:+ ".name")) (get rsAttr "name")
      then Some presentMessage
      else absentLoop dsAttr rsAttr rest
  end.

Definition checkDatabaseResourceAbsentInDataSourceAfterFilterApllied
    (dsAttr rsAttr : gmap string string) : option error :=
  match Atoi (get dsAttr "databases.#") with
  | None => Some countMessage
  | Some totalInstances => absentLoop dsAttr rsAttr (seqZ 0 totalInstances)
  end.

(** [s.RootModule().Resources], each resource reduced to its
    [Primary.Attributes]. *)
Abbreviation State := (gmap string (gmap string string)) (only parsing).

Definition cantFind (resource : string) : error :=
  "can't find " +:+ resource +:+ " in state".

(** The check of the basic test: both resources are listed with matching
    fields.  [order] and [order2] are the iteration orders of the two
    resource maps. *)
Definition checkDatabasesListDataSourceStateMatchesResourceStateWithIgnores
    (dataSourceName resourceName resourceName2 : string) (ignoreFields : gset string)
    (order order2 : list (string * string)) (s : State) : outcome :=
  match s !! dataSourceName with
  | None => Returns (Some (cantFind dataSourceName))
  | Some dsAttr =>
  match s !! resourceName with
  | None => Returns (Some (cantFind resourceName))
  | Some rsAttr =>
  match s !! resourceName2 with
  | None => Returns (Some (cantFind resourceName2))
  | Some rsAttr2 =>
      match checkDatabaseFieldsMatchForDataSourceStateAndResourceState
              dsAttr rsAttr ignoreFields order with
      | Returns None =>
          checkDatabaseFieldsMatchForDataSourceStateAndResourceState
            dsAttr rsAttr2 ignoreFields order2
      | failed => failed
      end
  end end end.

(** The check of the filter tests: the first resource is not listed, the
    second is, with matching fields. *)
Definition checkDatabaseListDataSourceStateMatchesResourceStateWithIgnoresForAppliedFilter
    (dataSourceName resourceName resourceName2 : string) (ignoreFields : gset string)
    (order2 : list (string * string)) (s : State) : outcome :=
  match s !! dataSourceName with
  | None => Returns (Some (cantFind dataSourceName))
  | Some dsAttr =>
  match s !! resourceName with
  | None => Returns (Some (cantFind resourceName))
  | Some rsAttr =>
  match s !! resourceName2 with
  | None => Returns (Some (cantFind resourceName2))
  | Some rsAttr2 =>
      match checkDatabaseResourceAbsentInDataSourceAfterFilterApllied dsAttr rsAttr with
      | Some err => Returns (Some err)
      | None =>
          checkDatabaseFieldsMatchForDataSourceStateAndResourceState
            dsAttr rsAttr2 ignoreFields order2
      end
  end end end.

(** The lines of a report, and their concatenation. *)
Definition mismatchLines (dsAttr : gmap string string) (index : string)
    (ignoreFields : gset string) (kvs : list (string * string)) : list string :=
  map (fun kv => mismatchLine (fst kv) (get dsAttr (entryKey index (fst kv))) (snd kv))
    (List.filter (mismatched dsAttr index ignoreFields) kvs).

Definition joinLines (lines : list string) : string :=
  fold_right String.append "" lines.

(** The name an entry of the data source carries. *)
Definition entryName (dsAttr : gmap string string) (i : Z) : string :=
  get dsAttr ("databases." +:+ Itoa i +:+ ".name").

(** [dsAttr] lists the entries [l] in the layout the checks read: the
    count under ["databases.#"] and each field of the i-th entry under
    ["databases.<i>.<field>"]. *)
Definition listsEntries (dsAttr : gmap string string) (l : list (gmap string string)) : Prop :=
  dsAttr !! "databases.#" = Some (Itoa (Z.of_nat (length l)))
  ∧ ∀ i m k v, l !! i = Some m → m !! k = Some v →
               dsAttr !! entryKey (Itoa (Z.of_nat i)) k = Some v.

(** The attributes of a resource describe the record [d]: they carry its
    name, and those that are checked are fields of its projection. *)
Definition describes (rsAttr : gmap string string) (ignoreFields : gset string)
    (d : Database) : Prop :=
  rsAttr !! "name" = Some (Name d)
  ∧ ∀ k v, rsAttr !! k = Some v → k ∉ ignoreFields → k ≠ "%" →
           flattenDatabase d !! k = Some v.

(** ** The App Engine default service account *)

Module AppEngine.

(** The fields of [iam.ServiceAccount] the data source reads. *)
Record ServiceAccount : Type := mkServiceAccount {
  Name : string;
  Email : string;
  UniqueId : string;
  ProjectId : string;
  DisplayName : string
}.

(** The resource data of the data source: its id and six attributes. *)
Record Data : Type := mkData {
  d_id : string;
  d_project : string;
  d_email : string;
  d_unique_id : string;
  d_name : string;
  d_display_name : string;
  d_member : string
}.

Section Read.

(** The provider helpers and the remote call.  [serviceAccountsGet userAgent
    name] is the outcome of [Projects.ServiceAccounts.Get(name).Do()]. *)
Variable generateUserAgentString : Data → string * option error.
Variable getProject : Data → string * option error.
Variable serviceAccountFQN : string → Data → string * option error.
Variable serviceAccountsGet : string → string → ServiceAccount * option error.
Variable handleNotFoundError : error → Data → string → Data * option error.
Variable quote : string → string.

(** [d.Set] of a string to a string attribute does not fail; the error
    branches of the six calls are left out. *)
Definition dataSourceGoogleAppEngineDefaultServiceAccountRead (d : Data)
    : Data * option error :=
  match generateUserAgentString d with
  | (_, Some err) => (d, Some err)
  | (userAgent, None) =>
  match getProject d with
  | (_, Some err) => (d, Some err)
  | (project, None) =>
  let serviceAccountEmail := project +:+ "@appspot.gserviceaccount.com" in
  match serviceAccountFQN serviceAccountEmail d with
  | (_, Some err) => (d, Some err)
  | (serviceAccountName, None) =>
  match serviceAccountsGet userAgent serviceAccountName with
  | (_, Some err) =>
      handleNotFoundError err d ("Service Account " +:+ quote serviceAccountName)
  | (sa, None) =>
      (mkData (Name sa) (ProjectId sa) (Email sa) (UniqueId sa) (Name sa)
         (DisplayName sa) ("serviceAccount:" +:+ Email sa),
       None)
  end end end end.

End Read.

End AppEngine.

(** ** Scenario data

    The records and clauses of the acceptance tests, and a read environment
    whose remote list returns a given sequence. *)

Definition mysqlDatabase (dbName charset collation : string) : Database :=
  mkDatabase dbName "tf-test-instance" "my-project" charset collation
    ("projects/my-project/instances/tf-test-instance/databases/" +:+ dbName).

Definition db1 : Database := mysqlDatabase "mysql-db1" "UTF8" "utf8_general_ci".
Definition db2 : Database := mysqlDatabase "mysql-db2" "UTF8" "utf8_general_ci".
Definition db3 : Database := mysqlDatabase "mysql-db3" "utf8mb4" "utf8mb4_bin".

(** [testAccDataSourceSqlDatabases_nameFilter]. *)
Definition nameFilter : Filter := mkFilter "name" [".*[0-9]"] [".*2"; ".*3"].

(** [testAccDataSourceSqlDatabases_nameAndCharsetFilter]. *)
Definition nameOnlyFilter : Filter := mkFilter "name" [".*[0-9]"] [].
Definition charsetFilter : Filter := mkFilter "charset" [".*8"] [".*mb4"].

(** Clauses the schema accepts and the filter rejects. *)
Definition openClassFilter : Filter := mkFilter "name" ["["] [].
Definition unknownFieldFilter : Filter := mkFilter "self_link" [".*"] [].
Definition excludeOneFilter : Filter := mkFilter "name" [] [".*1"].

Definition okUserAgent (d : ResourceData) : string * option error :=
  ("Terraform/1.0", None).
Definition okProject (d : ResourceData) : string * option error :=
  ("my-project", None).
Definition listReturns (items : slice Database) (userAgent project instance : string)
    : slice Database * option error :=
  (items, None).
Definition notFoundAsError (err : error) (d : ResourceData) (what : string)
    : ResourceData * option error :=
  (d, Some err).
Definition plainQuote (s : string) : string := s.

Definition readOf (items : slice Database) (d : ResourceData) : ResourceData * option error :=
  dataSourceSqlDatabasesRead Regexp.MatchString okUserAgent okProject
    (listReturns items) notFoundAsError plainQuote d.

Definition request (clauses : list (option Filter)) : ResourceData :=
  mkResourceData "tf-test-instance" clauses None "".

(** The state of [google_sql_database.db1] of the basic test and of the
    data source that lists it. *)
Definition pgResource : gmap string string :=
  list_to_map
    [("name", "pg-db1"); ("instance", "tf-test-instance"); ("project", "my-project");
     ("charset", "UTF8"); ("collation", "en_US.UTF8");
     ("self_link", "projects/my-project/instances/tf-test-instance/databases/pg-db1");
     ("deletion_policy", "DELETE");
     ("id", "projects/my-project/instances/tf-test-instance/databases/pg-db1")].

Definition pgDataSource : gmap string string :=
  list_to_map
    [("databases.#", "1");
     ("databases.0.name", "pg-db1"); ("databases.0.instance", "tf-test-instance");
     ("databases.0.project", "my-project");
     ("databases.0.charset", "UTF8"); ("databases.0.collation", "en_US.UTF8");
     ("databases.0.self_link",
      "projects/my-project/instances/tf-test-instance/databases/pg-db1")].

(** The same data source with two fields that disagree. *)
Definition pgDataSourceDrifted : gmap string string :=
  <["databases.0.charset" := "LATIN1"]> (<["databases.0.collation" := "C"]> pgDataSource).

Definition basicIgnores : gset string := {[ "deletion_policy"; "id" ]}.

(** The states of the acceptance tests.  A resource carries the six
    fields of its database and the two attributes the tests ignore. *)
Definition databaseResource (d : Database) : gmap string string :=
  <["deletion_policy" := "DELETE"]> (<["id" := SelfLink d]> (flattenDatabase d)).

Definition pgDb1 : Database :=
  mkDatabase "pg-db1" "tf-test-instance" "my-project" "UTF8" "en_US.UTF8"
    "projects/my-project/instances/tf-test-instance/databases/pg-db1".
Definition pgDb2 : Database :=
  mkDatabase "pg-db2" "tf-test-instance" "my-project" "UTF8" "en_US.UTF8"
    "projects/my-project/instances/tf-test-instance/databases/pg-db2".

(** The data source of the basic test: both databases listed. *)
Definition basicDataSource : gmap string string :=
  list_to_map
    [("id", "projects/my-project/instances/tf-test-instance/101");
     ("instance", "tf-test-instance");
     ("databases.#", "2");
     ("databases.0.name", "pg-db1"); ("databases.0.instance", "tf-test-instance");
     ("databases.0.project", "my-project");
     ("databases.0.charset", "UTF8"); ("databases.0.collation", "en_US.UTF8");
     ("databases.0.self_link",
      "projects/my-project/instances/tf-test-instance/databases/pg-db1");
     ("databases.1.name", "pg-db2"); ("databases.1.instance", "tf-test-instance");
     ("databases.1.project", "my-project");
     ("databases.1.charset", "UTF8"); ("databases.1.collation", "en_US.UTF8");
     ("databases.1.self_link",
      "projects/my-project/instances/tf-test-instance/databases/pg-db2")].

Definition basicState : gmap string (gmap string string) :=
  list_to_map
    [("data.google_sql_databases.qa", basicDataSource);
     ("google_sql_database.db1", databaseResource pgDb1);
     ("google_sql_database.db2", databaseResource pgDb2)].

(** The data source of the name-filter test: only [mysql-db1] listed. *)
Definition nameFilterDataSource : gmap string string :=
  list_to_map
    [("id", "projects/my-project/instances/tf-test-instance/101");
     ("instance", "tf-test-instance");
     ("filters.#", "1");
     ("databases.#", "1");
     ("databases.0.name", "mysql-db1"); ("databases.0.instance", "tf-test-instance");
     ("databases.0.project", "my-project");
     ("databases.0.charset", "UTF8"); ("databases.0.collation", "utf8_general_ci");
     ("databases.0.self_link",
      "projects/my-project/instances/tf-test-instance/databases/mysql-db1")].

Definition nameFilterState : gmap string (gmap string string) :=
  list_to_map
    [("data.google_sql_databases.qa", nameFilterDataSource);
     ("google_sql_database.db1", databaseResource db1);
     ("google_sql_database.db2", databaseResource db2)].

(** A read environment of the service-account data source. *)
Definition appEngineAccount : AppEngine.ServiceAccount :=
  AppEngine.mkServiceAccount
    "projects/my-project/serviceAccounts/my-project@appspot.gserviceaccount.com"
    "my-project@appspot.gserviceaccount.com" "1234567890" "my-project"
    "App Engine default service account".

Definition appEngineUserAgent (d : AppEngine.Data) : string * option error :=
  ("Terraform/1.0", None).
Definition appEngineProject (d : AppEngine.Data) : string * option error :=
  ("my-project", None).
Definition appEngineFQN (email : string) (d : AppEngine.Data) : string * option error :=
  ("projects/-/serviceAccounts/" +:+ email, None).
Definition appEngineGet (userAgent account : string)
    : AppEngine.ServiceAccount * option error :=
  (appEngineAccount, None).
Definition appEngineNotFound (err : error) (d : AppEngine.Data) (what : string)
    : AppEngine.Data * option error :=
  (d, Some err).

(** * Properties *)

(** ** Strings *)

Lemma hasPrefix_refl (p : string) : hasPrefix p p = true.
Proof.
  induction p as [|a p IH]; simpl; [done|].
  by rewrite Ascii.eqb_refl, IH.
Qed.

Lemma contains_refl (p : string) : contains p p = true.
Proof. destruct p; simpl; [done|]. by rewrite Ascii.eqb_refl, hasPrefix_refl. Qed.

Lemma contains_app_r (a p : string) : contains (a +:+ p) p = true.
Proof.
  induction a as [|c a IH]; simpl.
  - apply contains_refl.
  - rewrite IH. apply orb_true_r.
Qed.

(** ** The matcher of the regular-expression model *)

Module RegexpFacts.
Import Regexp.

Lemma app_eq_empty (s1 s2 : string) : s1 +:+ s2 = "" → s1 = "" ∧ s2 = "".
Proof. by destruct s1. Qed.

Lemma nullable_lang r : nullable r = true ↔ lang r "".
Proof.
  split.
  - induction r; simpl; intros H; try done.
    + constructor.
    + apply andb_true_iff in H as [Ha Hb].
      change "" with ("" +:+ ""). constructor; auto.
    + apply orb_true_iff in H as [Ha|Hb]; [apply lang_alt_l|apply lang_alt_r]; auto.
    + constructor.
  - intros H. remember "" as s eqn:Es.
    induction H; simpl; subst; try done.
    + apply app_eq_empty in Es as [-> ->]. by rewrite IHlang1, IHlang2.
    + by rewrite IHlang.
    + rewrite IHlang by done. apply orb_true_r.
Qed.

Lemma deriv_sound c r s : lang (deriv c r) s → lang r (String c s).
Proof.
  revert s. induction r as [| |neg rs|a IHa b IHb|a IHa b IHb|a IHa]; simpl; intros s H.
  - inversion H.
  - inversion H.
  - destruct (cls_mem neg rs c) eqn:E; inversion H; subst. by constructor.
  - assert (lang (Cat (deriv c a) b) s → lang (Cat a b) (String c s)) as Hcat.
    { intros Hc. inversion Hc; subst.
      change (String c (s1 +:+ s2)) with (String c s1 +:+ s2). constructor; auto. }
    destruct (nullable a) eqn:En; [|by apply Hcat].
    inversion H; subst; [by apply Hcat|].
    change (String c s) with ("" +:+ String c s).
    constructor; [by apply nullable_lang|auto].
  - inversion H; subst; [apply lang_alt_l|apply lang_alt_r]; auto.
  - inversion H; subst.
    change (String c (s1 +:+ s2)) with (String c s1 +:+ s2). constructor; auto.
Qed.

Lemma deriv_complete c r w : lang r w → ∀ s, w = String c s → lang (deriv c r) s.
Proof.
  induction 1 as [|neg rs c0 Hc|a b s1 s2 Ha IHa Hb IHb|a b s0 Ha IHa|a b s0 Hb IHb
                  |a|a s1 s2 Ha IHa Hs IHs]; intros s Es; simpl.
  - done.
  - inversion Es; subst. rewrite Hc. constructor.
  - destruct s1 as [|c' s1'].
    + change (s2 = String c s) in Es. subst s2.
      apply nullable_lang in Ha. rewrite Ha. apply lang_alt_r. by apply IHb.
    + inversion Es; subst.
      assert (lang (Cat (deriv c a) b) (s1' +:+ s2)) as Hc
        by (constructor; [by apply IHa|done]).
      destruct (nullable a); [by apply lang_alt_l|done].
  - apply lang_alt_l. by apply IHa.
  - apply lang_alt_r. by apply IHb.
  - done.
  - destruct s1 as [|c' s1'].
    + change (s2 = String c s) in Es. by apply IHs.
    + inversion Es; subst. constructor; [by apply IHa|done].
Qed.

(** The matcher decides "some prefix is in the language". *)
Lemma matchPrefix_spec r s :
  matchPrefix r s = true ↔ ∃ s1 s2, s = s1 +:+ s2 ∧ lang r s1.
Proof.
  revert r. induction s as [|c s IH]; intros r; simpl.
  - rewrite orb_false_r, nullable_lang. split.
    + intros H. by exists "", "".
    + intros (s1 & s2 & Es & H). symmetry in Es.
      by apply app_eq_empty in Es as [-> ->].
  - rewrite orb_true_iff, nullable_lang, IH. split.
    + intros [H|(s1 & s2 & -> & H)].
      * by exists "", (String c s).
      * exists (String c s1), s2. split; [done|]. by apply deriv_sound.
    + intros (s1 & s2 & Es & H). destruct s1 as [|c' s1'].
      * by left.
      * inversion Es; subst. right. exists s1', s2. split; [done|].
        by apply (deriv_complete c' r (String c' s1')).
Qed.

(** The unanchored matcher decides "some substring is in the language". *)
Lemma matchAnywhere_spec r s :
  matchAnywhere r s = true ↔ ∃ s0 s1 s2, s = s0 +:+ s1 +:+ s2 ∧ lang r s1.
Proof.
  induction s as [|c s IH]; cbn [matchAnywhere].
  - rewrite orb_false_r, matchPrefix_spec. split.
    + intros (s1 & s2 & Es & H). by exists "", s1, s2.
    + intros (s0 & s1 & s2 & Es & H). symmetry in Es.
      apply app_eq_empty in Es as [-> Es]. by exists s1, s2.
  - rewrite orb_true_iff, matchPrefix_spec, IH. split.
    + intros [(s1 & s2 & Es & H)|(s0 & s1 & s2 & -> & H)].
      * by exists "", s1, s2.
      * by exists (String c s0), s1, s2.
    + intros (s0 & s1 & s2 & Es & H). destruct s0 as [|c' s0'].
      * left. by exists s1, s2.
      * inversion Es; subst. right. by exists s0', s1, s2.
Qed.

(** A compile error does not depend on the string matched. *)
Lemma MatchString_error_uniform p v v' :
  MatchString p v = None → MatchString p v' = None.
Proof. unfold MatchString. by destruct (compile p). Qed.

End RegexpFacts.

(** ** The filter pipeline *)

Section PipelineFacts.

Variable MatchString : string → string → option bool.

Local Abbreviation regexMatch := (regexMatch MatchString).
Local Abbreviation filterLoop := (filterLoop MatchString).
Local Abbreviation databasesLoop := (databasesLoop MatchString).
Local Abbreviation applyFilterOnDatabases := (applyFilterOnDatabases MatchString).
Local Abbreviation spec_matches := (spec_matches MatchString).
Local Abbreviation spec_clause_includes := (spec_clause_includes MatchString).
Local Abbreviation spec_survives := (spec_survives MatchString).
Local Abbreviation firstMalformed := (firstMalformed MatchString).
Local Abbreviation clauseVerdict := (clauseVerdict MatchString).
Local Abbreviation clauseError := (clauseError MatchString).

(** *** [regexMatch] *)

Lemma includeLoop_inl ps v b b' :
  includeLoop MatchString ps v b = inl b' →
  b' = b || existsb (spec_matches v) ps ∧ firstMalformed ps v = None.
Proof.
  revert b. induction ps as [|p ps IH]; simpl; intros b H.
  - inversion H. by rewrite orb_false_r.
  - unfold spec_matches at 1. unfold firstMalformed. simpl.
    destruct (MatchString p v) as [m|]; [|done].
    apply IH in H as [-> Hm]. split; [|exact Hm].
    destruct m; by rewrite <- ?orb_assoc.
Qed.

Lemma includeLoop_malformed ps v b p :
  firstMalformed ps v = Some p →
  includeLoop MatchString ps v b = inr ("Invalid regex " +:+ p).
Proof.
  revert b. unfold firstMalformed.
  induction ps as [|q ps IH]; simpl; intros b H; [done|].
  destruct (MatchString q v); [by apply IH|]. by inversion H.
Qed.

Lemma includeLoop_wellformed ps v b :
  firstMalformed ps v = None →
  includeLoop MatchString ps v b = inl (b || existsb (spec_matches v) ps).
Proof.
  intros H. destruct (includeLoop MatchString ps v b) as [b'|e] eqn:E.
  - by apply includeLoop_inl in E as [-> _].
  - exfalso. revert b E. unfold firstMalformed in H.
    induction ps as [|q ps IH]; simpl in *; intros b E; [done|].
    destruct (MatchString q v); [by eapply IH|done].
Qed.

Lemma excludeLoop_wellformed ps v inc :
  firstMalformed ps v = None →
  excludeLoop MatchString ps v inc = (inc && negb (existsb (spec_matches v) ps), None).
Proof.
  revert inc. unfold firstMalformed.
  induction ps as [|q ps IH]; simpl; intros inc H.
  - by rewrite andb_true_r.
  - unfold spec_matches at 1.
    destruct (MatchString q v) as [m|]; [|done].
    rewrite IH by done. destruct m, inc; simpl; try done.
Qed.

Lemma excludeLoop_no_match ps v inc :
  (∀ p, p ∈ ps → MatchString p v = Some false) →
  excludeLoop MatchString ps v inc = (inc, None).
Proof.
  induction ps as [|q ps IH]; simpl; intros H; [done|].
  rewrite (H q) by left. apply IH. intros p Hp. apply H. by right.
Qed.

Lemma excludeLoop_malformed ps v inc p :
  firstMalformed ps v = Some p →
  snd (excludeLoop MatchString ps v inc) = Some ("Invalid regex " +:+ p).
Proof.
  revert inc. unfold firstMalformed.
  induction ps as [|q ps IH]; simpl; intros inc H; [done|].
  destruct (MatchString q v); [by apply IH|]. by inversion H.
Qed.

Lemma excludeLoop_ok ps v inc i :
  excludeLoop MatchString ps v inc = (i, None) →
  i = inc && negb (existsb (spec_matches v) ps) ∧ firstMalformed ps v = None.
Proof.
  intros H. destruct (firstMalformed ps v) as [p|] eqn:E.
  - apply (excludeLoop_malformed _ _ inc) in E. by rewrite H in E.
  - rewrite excludeLoop_wellformed in H by done. by inversion H.
Qed.

Lemma firstMalformed_app ps qs v :
  firstMalformed (ps ++ qs) v =
  match firstMalformed ps v with
  | Some p => Some p
  | None => firstMalformed qs v
  end.
Proof.
  unfold firstMalformed.
  induction ps as [|p ps IH]; simpl; [done|].
  by destruct (MatchString p v).
Qed.

Lemma firstMalformed_Some ps v p :
  firstMalformed ps v = Some p → p ∈ ps ∧ MatchString p v = None.
Proof.
  unfold firstMalformed. intros H.
  apply find_some in H as [Hin Hp]. split.
  - by apply list_elem_of_In.
  - by destruct (MatchString p v).
Qed.

Lemma regexMatch_ok f v inc i :
  regexMatch f v inc = (i, None) →
  i = inc && clauseVerdict f v ∧ firstMalformed (patternsOf f) v = None.
Proof.
  unfold regexMatch, clauseVerdict, patternsOf. intros H.
  destruct (includeLoop MatchString (values f) v false) as [b|e] eqn:E; [|done].
  apply includeLoop_inl in E as [-> E].
  apply excludeLoop_ok in H as [-> H].
  rewrite firstMalformed_app, E. split; [|done].
  destruct (values f); simpl; [done|].
  by rewrite andb_assoc.
Qed.

Lemma regexMatch_wellformed f v inc :
  firstMalformed (patternsOf f) v = None →
  regexMatch f v inc = (inc && clauseVerdict f v, None).
Proof.
  unfold patternsOf. rewrite firstMalformed_app. intros H.
  destruct (firstMalformed (values f) v) eqn:E; [done|].
  unfold regexMatch, clauseVerdict.
  rewrite includeLoop_wellformed, excludeLoop_wellformed by done.
  destruct (values f); simpl; [done|]. by rewrite andb_assoc.
Qed.

Lemma regexMatch_malformed f v inc p :
  firstMalformed (patternsOf f) v = Some p →
  snd (regexMatch f v inc) = Some ("Invalid regex " +:+ p).
Proof.
  unfold patternsOf. rewrite firstMalformed_app. intros H.
  unfold regexMatch.
  destruct (firstMalformed (values f) v) as [q|] eqn:E.
  - inversion H; subst. by rewrite (includeLoop_malformed _ _ _ _ E).
  - rewrite includeLoop_wellformed by done. by apply excludeLoop_malformed.
Qed.

(** *** The loop over the clauses *)

Lemma filterLoop_false d fs : filterLoop d fs false = (false, None).
Proof. induction fs as [|[f|] fs IH]; simpl; done. Qed.

Lemma filterLoop_ok d fs inc b :
  filterLoop d fs inc = (b, None) → b = inc && spec_survives fs d.
Proof.
  revert inc. induction fs as [|[f|] fs IH]; simpl; intros inc H.
  - inversion H. by rewrite andb_true_r.
  - destruct inc; simpl in H; [|by inversion H].
    destruct (fieldOf f d) as [v|] eqn:Ef; [|done].
    destruct (regexMatch f v true) as [i [e|]] eqn:Er; [done|].
    apply regexMatch_ok in Er as [-> _]. by apply IH in H.
  - by apply IH in H.
Qed.

Lemma filterLoop_app d pre post inc b :
  filterLoop d pre inc = (b, None) →
  filterLoop d (pre ++ post) inc = filterLoop d post b.
Proof.
  revert inc. induction pre as [|[f|] pre IH]; simpl; intros inc H.
  - by inversion H.
  - destruct inc; simpl in *.
    + destruct (fieldOf f d) as [v|]; [|done].
      destruct (regexMatch f v true) as [i [e|]]; [done|]. by apply IH.
    + inversion H. by rewrite filterLoop_false.
  - by apply IH.
Qed.

Lemma filterLoop_invalid d f post e :
  clauseError f d = Some e →
  filterLoop d (Some f :: post) true = (true, Some e).
Proof.
  unfold clauseError. simpl. intros H.
  destruct (fieldOf f d) as [v|]; [|by inversion H].
  destruct (firstMalformed (patternsOf f) v) as [p|] eqn:E; [|done].
  apply (regexMatch_malformed _ _ true) in E.
  destruct (regexMatch f v true) as [i [e'|]]; simpl in E; congruence.
Qed.

Lemma filterLoop_reaches_invalid d pre f post e :
  filterLoop d pre true = (true, None) →
  clauseError f d = Some e →
  filterLoop d (pre ++ Some f :: post) true = (true, Some e).
Proof.
  intros Hpre He. rewrite (filterLoop_app _ _ _ _ _ Hpre).
  by apply filterLoop_invalid.
Qed.

Lemma filterLoop_err_inv d fs inc b e :
  filterLoop d fs inc = (b, Some e) →
  ∃ pre f post, fs = (pre ++ Some f :: post)%list
    ∧ filterLoop d pre inc = (true, None)
    ∧ clauseError f d = Some e.
Proof.
  revert inc. induction fs as [|[f|] fs IH]; simpl; intros inc H; [done| |].
  - destruct inc; simpl in H; [|done].
    destruct (fieldOf f d) as [v|] eqn:Ef.
    + destruct (regexMatch f v true) as [i [e'|]] eqn:Er.
      * exists [], f, fs. split; [done|]. split; [done|].
        inversion H; subst e'. unfold clauseError. rewrite Ef.
        destruct (firstMalformed (patternsOf f) v) as [p|] eqn:Em.
        -- apply (regexMatch_malformed _ _ true) in Em. rewrite Er in Em.
           simpl in Em. congruence.
        -- rewrite regexMatch_wellformed in Er by done. done.
      * destruct (IH _ H) as (pre & g & post & -> & Hpre & Hg).
        exists (Some f :: pre), g, post. repeat split; [|done].
        simpl. by rewrite Ef, Er.
    + exists [], f, fs. split; [done|]. split; [done|].
      unfold clauseError. rewrite Ef. congruence.
  - destruct (IH _ H) as (pre & g & post & -> & Hpre & Hg).
    by exists (None :: pre), g, post.
Qed.

(** *** The loop over the records *)

Lemma databasesLoop_app ds1 ds2 fs acc :
  (∀ d, d ∈ ds1 → snd (filterLoop d fs true) = None) →
  databasesLoop (ds1 ++ ds2) fs acc =
  databasesLoop ds2 fs (acc ++ List.filter (spec_survives fs) ds1).
Proof.
  revert acc. induction ds1 as [|d ds1 IH]; simpl; intros acc H.
  - by rewrite app_nil_r.
  - assert (Hd := H d ltac:(left)).
    destruct (filterLoop d fs true) as [i [e|]] eqn:E; [done|].
    apply filterLoop_ok in E. simpl in E. subst i.
    rewrite IH by (intros; apply H; by right).
    destruct (spec_survives fs d); [|done]. by rewrite <- app_assoc.
Qed.

Lemma databasesLoop_noerr ds fs acc :
  (∀ d, d ∈ ds → snd (filterLoop d fs true) = None) →
  databasesLoop ds fs acc = ((acc ++ List.filter (spec_survives fs) ds)%list, None).
Proof.
  intros H. rewrite <- (app_nil_r ds) at 1. by rewrite databasesLoop_app.
Qed.

Lemma databasesLoop_fails ds1 d ds2 fs acc e :
  (∀ d', d' ∈ ds1 → snd (filterLoop d' fs true) = None) →
  snd (filterLoop d fs true) = Some e →
  databasesLoop (ds1 ++ d :: ds2) fs acc =
  ((acc ++ List.filter (spec_survives fs) ds1)%list, Some e).
Proof.
  intros H He. rewrite databasesLoop_app by done. simpl.
  destruct (filterLoop d fs true) as [i [e'|]]; simpl in He; congruence.
Qed.

Lemma databasesLoop_ok_inv ds fs acc out :
  databasesLoop ds fs acc = (out, None) →
  ∀ d, d ∈ ds → snd (filterLoop d fs true) = None.
Proof.
  revert acc. induction ds as [|d0 ds IH]; simpl; intros acc H d Hd.
  - by apply elem_of_nil in Hd.
  - destruct (filterLoop d0 fs true) as [i [e|]] eqn:E; [done|].
    apply elem_of_cons in Hd as [-> | Hd]; [by rewrite E|]. by eapply IH.
Qed.

Lemma databasesLoop_err_inv ds fs acc out e :
  databasesLoop ds fs acc = (out, Some e) →
  ∃ ds1 d ds2, ds = (ds1 ++ d :: ds2)%list
    ∧ (∀ d', d' ∈ ds1 → snd (filterLoop d' fs true) = None)
    ∧ snd (filterLoop d fs true) = Some e
    ∧ out = (acc ++ List.filter (spec_survives fs) ds1)%list.
Proof.
  revert acc. induction ds as [|d0 ds IH]; simpl; intros acc H; [done|].
  destruct (filterLoop d0 fs true) as [i [e'|]] eqn:E.
  - inversion H; subst. exists [], d0, ds. rewrite E, app_nil_r.
    split_and!; try done. intros d' Hd'. by apply elem_of_nil in Hd'.
  - destruct (IH _ H) as (ds1 & d & ds2 & -> & H1 & H2 & ->).
    exists (d0 :: ds1), d, ds2. split_and!; try done.
    + intros d' Hd'. apply elem_of_cons in Hd' as [-> | Hd']; [by rewrite E|auto].
    + apply filterLoop_ok in E. simpl in E. subst i. simpl.
      destruct (spec_survives fs d0); [|done]. by rewrite <- app_assoc.
Qed.

(** *** The whole function *)

Lemma applyFilterOnDatabases_empty s fs :
  len s = 0 → applyFilterOnDatabases s fs = (s, None).
Proof. unfold applyFilterOnDatabases. by intros ->. Qed.

Lemma applyFilterOnDatabases_cons d ds fs :
  applyFilterOnDatabases (Some (d :: ds)) fs =
  (Some (databasesLoop (d :: ds) fs []).1, (databasesLoop (d :: ds) fs []).2).
Proof.
  unfold applyFilterOnDatabases. cbn [len length Nat.eqb elems].
  by destruct (databasesLoop (d :: ds) fs []).
Qed.

Lemma len_0_elems {A} (s : option (list A)) : len s = 0 → elems s = [].
Proof. destruct s as [[|]|]; simpl; done. Qed.

Lemma applyFilterOnDatabases_ok s fs out :
  applyFilterOnDatabases s fs = (out, None) →
  elems out = List.filter (spec_survives fs) (elems s).
Proof.
  destruct s as [[|d ds]|].
  - rewrite applyFilterOnDatabases_empty by done. by intros [= <-].
  - rewrite applyFilterOnDatabases_cons.
    destruct (databasesLoop (d :: ds) fs []) as [o e] eqn:E. simpl.
    intros [= <- ->].
    rewrite databasesLoop_noerr in E by (by eapply databasesLoop_ok_inv).
    by inversion E.
  - rewrite applyFilterOnDatabases_empty by done. by intros [= <-].
Qed.

Lemma filter_sublist {A} (P : A → bool) (l : list A) : sublist (List.filter P l) l.
Proof.
  induction l as [|x l IH]; simpl; [constructor|].
  destruct (P x); by constructor.
Qed.

Lemma spec_survives_clause fs d c :
  spec_survives fs d = true → c ∈ fs → spec_clause_includes d c = true.
Proof.
  unfold spec_survives. rewrite forallb_forall. intros H Hc.
  apply H. by apply list_elem_of_In.
Qed.

Lemma len_elems {A} (s : option (list A)) : len s = length (elems s).
Proof. by destruct s. Qed.

Lemma filter_true {A} (P : A → bool) (l : list A) :
  (∀ x, P x = true) → List.filter P l = l.
Proof. intros H. induction l as [|x l IH]; simpl; [done|]. by rewrite H, IH. Qed.

Lemma applyFilterOnDatabases_nil s : applyFilterOnDatabases s [] = (s, None).
Proof.
  destruct s as [[|d ds]|]; try done.
  rewrite applyFilterOnDatabases_cons, databasesLoop_noerr by done.
  simpl. by rewrite filter_true.
Qed.

Lemma applyFilterOnDatabases_fails ds1 d ds2 fs e :
  (∀ d', d' ∈ ds1 → snd (filterLoop d' fs true) = None) →
  snd (filterLoop d fs true) = Some e →
  applyFilterOnDatabases (Some (ds1 ++ d :: ds2)%list) fs =
  (Some (List.filter (spec_survives fs) ds1), Some e).
Proof.
  intros H He. unfold applyFilterOnDatabases.
  replace (Nat.eqb (len (Some (ds1 ++ d :: ds2)%list)) 0) with false
    by (simpl; rewrite length_app; simpl; by rewrite Nat.add_succ_r).
  cbn [elems]. by rewrite (databasesLoop_fails _ _ _ _ _ e).
Qed.

Lemma applyFilterOnDatabases_err_inv s fs out e :
  applyFilterOnDatabases s fs = (out, Some e) →
  ∃ ds1 d ds2, elems s = (ds1 ++ d :: ds2)%list
    ∧ (∀ d', d' ∈ ds1 → snd (filterLoop d' fs true) = None)
    ∧ snd (filterLoop d fs true) = Some e
    ∧ out = Some (List.filter (spec_survives fs) ds1).
Proof.
  destruct s as [[|d0 ds]|]; try done.
  rewrite applyFilterOnDatabases_cons.
  destruct (databasesLoop (d0 :: ds) fs []) as [o e'] eqn:E. simpl.
  intros [= <- ->].
  apply databasesLoop_err_inv in E as (ds1 & d & ds2 & E & H1 & H2 & ->).
  by exists ds1, d, ds2.
Qed.

Lemma filterLoop_neutral d pre post f inc :
  name f = "name" ∨ name f = "charset" ∨ name f = "collation" →
  values f = [] → exclude_values f = [] →
  filterLoop d (pre ++ Some f :: post) inc = filterLoop d (pre ++ post) inc.
Proof.
  intros Hn Hv He. revert inc. induction pre as [|[g|] pre IH]; simpl; intros inc.
  - destruct inc; simpl; [|by rewrite filterLoop_false].
    unfold fieldOf, regexMatch. rewrite Hv, He.
    by destruct Hn as [-> | [-> | ->]].
  - destruct inc; simpl; [|done].
    destruct (fieldOf g d) as [v|]; [|done].
    by destruct (regexMatch g v true) as [i [e|]].
  - done.
Qed.

Lemma databasesLoop_ext ds fs fs' acc :
  (∀ d, filterLoop d fs true = filterLoop d fs' true) →
  databasesLoop ds fs acc = databasesLoop ds fs' acc.
Proof.
  intros H. revert acc. induction ds as [|d ds IH]; simpl; intros acc; [done|].
  rewrite H. destruct (filterLoop d fs' true) as [i [e|]]; [done|]. apply IH.
Qed.

(** *** The claims about the pipeline *)

(** C1. Exclude dominance: when the filter returns without error, a record
    whose field, as some clause resolves it, is matched by one of that
    clause's exclude patterns is not in the output, whatever the include
    patterns of that clause or of the other clauses match. *)
Theorem exclude_dominance s fs out d f v p :
  applyFilterOnDatabases s fs = (out, None) →
  Some f ∈ fs →
  fieldOf f d = Some v →
  p ∈ exclude_values f →
  MatchString p v = Some true →
  d ∉ elems out.
Proof.
  intros Hok Hf Hv Hp Hm Hd.
  rewrite (applyFilterOnDatabases_ok _ _ _ Hok) in Hd.
  apply list_elem_of_In, filter_In in Hd as [_ Hs].
  apply (spec_survives_clause _ _ _ Hs) in Hf.
  simpl in Hf. rewrite Hv in Hf. unfold clauseVerdict in Hf.
  apply andb_true_iff in Hf as [_ Hf]. apply negb_true_iff in Hf.
  assert (existsb (spec_matches v) (exclude_values f) = true) as Hex; [|congruence].
  apply existsb_exists. exists p. split; [by apply list_elem_of_In|].
  unfold spec_matches. by rewrite Hm.
Qed.

(** C2. When the filter returns without error, its output is the input
    filtered by "every clause evaluates to include": the same records in
    the same order, as many as pass all clauses, a subsequence of the
    input. *)
Theorem filter_output_is_passing_subsequence s fs out :
  applyFilterOnDatabases s fs = (out, None) →
  elems out = List.filter (spec_survives fs) (elems s)
  ∧ len out = length (List.filter (spec_survives fs) (elems s))
  ∧ sublist (elems out) (elems s).
Proof.
  intros Hok. apply applyFilterOnDatabases_ok in Hok.
  rewrite len_elems, Hok. split_and!; try done. apply filter_sublist.
Qed.

(** C6. The empty clause list is the identity filter, and a clause on a
    filterable field with no include and no exclude pattern is neutral:
    [regexMatch] hands [include] back unchanged, and the filter gives the
    same result with the clause as without it.  An empty include list
    alone never excludes: with no exclude pattern matching, [include] comes
    back unchanged. *)
Theorem filter_identity_and_neutral_clause :
  (∀ s, applyFilterOnDatabases s [] = (s, None))
  ∧ (∀ f v inc,
       values f = [] → exclude_values f = [] → regexMatch f v inc = (inc, None))
  ∧ (∀ f v inc,
       values f = [] →
       (∀ p, p ∈ exclude_values f → MatchString p v = Some false) →
       regexMatch f v inc = (inc, None))
  ∧ (∀ s pre post f,
       name f = "name" ∨ name f = "charset" ∨ name f = "collation" →
       values f = [] → exclude_values f = [] →
       applyFilterOnDatabases s (pre ++ Some f :: post)
       = applyFilterOnDatabases s (pre ++ post)).
Proof.
  split_and!.
  - apply applyFilterOnDatabases_nil.
  - intros f v inc Hv He. unfold regexMatch. by rewrite Hv, He.
  - intros f v inc Hv He. unfold regexMatch. rewrite Hv. simpl.
    by apply excludeLoop_no_match.
  - intros s pre post f Hn Hv He. unfold applyFilterOnDatabases.
    destruct (Nat.eqb (len s) 0); [done|].
    rewrite (databasesLoop_ext _ _ (pre ++ post)); [done|].
    intros d. by apply filterLoop_neutral.
Qed.

(** C9. Clause errors are raised lazily, record by record.  On an empty
    record sequence the filter returns it at once, whatever the clauses.
    A record that an earlier clause has excluded is not evaluated against
    the later clauses, so they raise nothing for it.  And when the filter
    does fail, some record reached, with [include] still true, a clause
    that is invalid for it, and the error is that clause's. *)
Theorem clause_errors_are_lazy :
  (∀ s fs, len s = 0 → applyFilterOnDatabases s fs = (s, None) ∧ elems s = [])
  ∧ (∀ d pre post,
       filterLoop d pre true = (false, None) →
       filterLoop d (pre ++ post) true = (false, None))
  ∧ (∀ ds pre post,
       (∀ d, d ∈ ds → filterLoop d pre true = (false, None)) →
       applyFilterOnDatabases (Some ds) (pre ++ post) = (Some [], None))
  ∧ (∀ s fs out e,
       applyFilterOnDatabases s fs = (out, Some e) →
       ∃ d pre f post,
         d ∈ elems s ∧ fs = (pre ++ Some f :: post)%list
         ∧ filterLoop d pre true = (true, None)
         ∧ clauseError f d = Some e).
Proof.
  assert (∀ d pre post,
       filterLoop d pre true = (false, None) →
       filterLoop d (pre ++ post) true = (false, None)) as Hshort.
  { intros d pre post H. rewrite (filterLoop_app _ _ _ _ _ H).
    apply filterLoop_false. }
  split_and!.
  - intros s fs H. split; [by apply applyFilterOnDatabases_empty|by apply len_0_elems].
  - exact Hshort.
  - intros [|d ds] pre post H; [done|].
    rewrite applyFilterOnDatabases_cons, databasesLoop_noerr.
    + simpl. f_equal. f_equal.
      assert (∀ l, (∀ x, x ∈ l → spec_survives (pre ++ post) x = false) →
                   List.filter (spec_survives (pre ++ post)) l = []) as Hnil.
      { induction l as [|x l IH]; simpl; intros Hl; [done|].
        rewrite (Hl x) by left. apply IH. intros; apply Hl; by right. }
      apply (Hnil (d :: ds)). intros x Hx.
      assert (Hx' := Hshort _ _ post (H x Hx)).
      by apply filterLoop_ok in Hx'.
    + intros x Hx. by rewrite (Hshort _ _ post (H x Hx)).
  - intros s fs out e H.
    apply applyFilterOnDatabases_err_inv in H as (ds1 & d & ds2 & Es & _ & He & _).
    destruct (filterLoop d fs true) as [b oe] eqn:E. simpl in He. subst oe.
    apply filterLoop_err_inv in E as (pre & f & post & -> & Hpre & Hf).
    exists d, pre, f, post. split_and!; try done.
    rewrite Es. apply elem_of_app. right. by left.
Qed.

End PipelineFacts.

(** ** The read operation *)

Section ReadFacts.

Variable MatchString : string → string → option bool.
Variable generateUserAgentString : ResourceData → string * option error.
Variable getProject : ResourceData → string * option error.
Variable databasesList : string → string → string → option (list Database) * option error.
Variable handleNotFoundError : error → ResourceData → string → ResourceData * option error.
Variable quote : string → string.

Local Abbreviation filterLoop := (filterLoop MatchString).
Local Abbreviation applyFilterOnDatabases := (applyFilterOnDatabases MatchString).
Local Abbreviation spec_survives := (spec_survives MatchString).
Local Abbreviation firstMalformed := (firstMalformed MatchString).
Local Abbreviation clauseError := (clauseError MatchString).
Local Abbreviation dataSourceSqlDatabasesRead :=
  (dataSourceSqlDatabasesRead MatchString generateUserAgentString getProject
     databasesList handleNotFoundError quote).
Local Abbreviation fetched := (fetched generateUserAgentString getProject databasesList).

(** An error of the filter is the result of the read, and nothing is
    written to the resource data. *)
Lemma read_filter_error d items out e :
  fetched d items →
  applyFilterOnDatabases items (rd_filters d) = (out, Some e) →
  dataSourceSqlDatabasesRead d = (d, Some e).
Proof.
  intros (ua & proj & Hua & Hproj & Hlist) Hf.
  unfold dataSourceSqlDatabasesRead. rewrite Hua, Hproj, Hlist.
  destruct (rd_filters d) as [|c cs] eqn:E.
  - by rewrite applyFilterOnDatabases_nil in Hf.
  - by rewrite Hf.
Qed.

Lemma reached_invalid_clause_fails ds1 d ds2 pre f post e :
  (∀ d', d' ∈ ds1 → snd (filterLoop d' (pre ++ Some f :: post) true) = None) →
  filterLoop d pre true = (true, None) →
  clauseError f d = Some e →
  applyFilterOnDatabases (Some (ds1 ++ d :: ds2)%list) (pre ++ Some f :: post)
  = (Some (List.filter (spec_survives (pre ++ Some f :: post)) ds1), Some e).
Proof.
  intros H1 Hpre He. apply applyFilterOnDatabases_fails; [done|].
  by rewrite (filterLoop_reaches_invalid _ _ _ _ _ _ Hpre He).
Qed.

(** C3, amended. A pattern that does not compile fails the invocation
    when a record reaches its clause: if no earlier record raised an
    error and record [d] arrives at clause [f] with [include] still true,
    then the filter fails with ["Invalid regex "] followed by the first
    pattern of [f], include patterns before exclude patterns, that does
    not compile; the message names that pattern; and the read operation
    returns that error and writes nothing. *)
Theorem malformed_pattern_fails_when_reached r ds1 d ds2 pre f post v p :
  fetched r (Some (ds1 ++ d :: ds2)%list) →
  rd_filters r = (pre ++ Some f :: post)%list →
  (∀ d', d' ∈ ds1 → snd (filterLoop d' (pre ++ Some f :: post) true) = None) →
  filterLoop d pre true = (true, None) →
  fieldOf f d = Some v →
  firstMalformed (patternsOf f) v = Some p →
  (p ∈ patternsOf f ∧ MatchString p v = None)
  ∧ applyFilterOnDatabases (Some (ds1 ++ d :: ds2)%list) (pre ++ Some f :: post)
    = (Some (List.filter (spec_survives (pre ++ Some f :: post)) ds1),
       Some ("Invalid regex " +:+ p))
  ∧ contains ("Invalid regex " +:+ p) p = true
  ∧ dataSourceSqlDatabasesRead r = (r, Some ("Invalid regex " +:+ p)).
Proof.
  intros Hfetch Hfs H1 Hpre Hv Hp.
  assert (clauseError f d = Some ("Invalid regex " +:+ p)) as He.
  { unfold clauseError. by rewrite Hv, Hp. }
  assert (Happ := reached_invalid_clause_fails _ _ ds2 _ _ post _ H1 Hpre He).
  split_and!.
  - by apply firstMalformed_Some in Hp as [? ?].
  - by apply firstMalformed_Some in Hp as [? ?].
  - exact Happ.
  - apply contains_app_r.
  - eapply read_filter_error; [done|]. rewrite Hfs. exact Happ.
Qed.

(** C4, amended. A clause whose field name is none of ["name"],
    ["charset"], ["collation"] fails the invocation when a record reaches
    it: if no earlier record raised an error and record [d] arrives at
    the clause with [include] still true, the filter fails with the fixed
    message ["Invalid filter"], and the read operation returns that error
    and writes nothing. *)
Theorem unknown_field_fails_when_reached r ds1 d ds2 pre f post :
  fetched r (Some (ds1 ++ d :: ds2)%list) →
  rd_filters r = (pre ++ Some f :: post)%list →
  name f ≠ "name" → name f ≠ "charset" → name f ≠ "collation" →
  (∀ d', d' ∈ ds1 → snd (filterLoop d' (pre ++ Some f :: post) true) = None) →
  filterLoop d pre true = (true, None) →
  applyFilterOnDatabases (Some (ds1 ++ d :: ds2)%list) (pre ++ Some f :: post)
  = (Some (List.filter (spec_survives (pre ++ Some f :: post)) ds1),
     Some "Invalid filter")
  ∧ dataSourceSqlDatabasesRead r = (r, Some "Invalid filter").
Proof.
  intros Hfetch Hfs Hn1 Hn2 Hn3 H1 Hpre.
  assert (clauseError f d = Some "Invalid filter") as He.
  { unfold clauseError, fieldOf.
    apply String.eqb_neq in Hn1, Hn2, Hn3. by rewrite Hn1, Hn2, Hn3. }
  assert (Happ := reached_invalid_clause_fails _ _ ds2 _ _ post _ H1 Hpre He).
  split; [exact Happ|].
  eapply read_filter_error; [done|]. rewrite Hfs. exact Happ.
Qed.

(** *** Errors do not depend on the record *)

(** [regexp.MatchString] fails only when the pattern does not compile,
    whatever the string matched against. *)
Hypothesis compile_error_uniform :
  ∀ p v v', MatchString p v = None → MatchString p v' = None.

Lemma filterLoop_prefix_survives d pre post :
  filterLoop d (pre ++ post) true = (true, None) →
  filterLoop d pre true = (true, None).
Proof.
  intros H. destruct (filterLoop d pre true) as [b [e|]] eqn:E.
  - apply filterLoop_err_inv in E as (p1 & f & p2 & -> & Hp1 & Hf).
    rewrite <- app_assoc in H. simpl in H.
    by rewrite (filterLoop_reaches_invalid _ _ _ _ _ _ Hp1 Hf) in H.
  - destruct b; [done|].
    rewrite (filterLoop_app _ _ _ _ _ _ E), filterLoop_false in H. done.
Qed.

Lemma firstMalformed_uniform ps v v' p :
  firstMalformed ps v = Some p → firstMalformed ps v' ≠ None.
Proof.
  intros H E'. apply firstMalformed_Some in H as [Hin Hp].
  unfold firstMalformed in E'.
  apply list_elem_of_In in Hin.
  assert (Hn := find_none _ _ E' p Hin). simpl in Hn.
  by rewrite (compile_error_uniform _ _ v' Hp) in Hn.
Qed.

Lemma clauseError_uniform f d d' e :
  clauseError f d = Some e → clauseError f d' ≠ None.
Proof.
  unfold clauseError, fieldOf.
  destruct (String.eqb (name f) "name"), (String.eqb (name f) "charset"),
    (String.eqb (name f) "collation"); try done.
  all: intros H;
    match type of H with
    | context [firstMalformed ?ps ?v] =>
        destruct (firstMalformed ps v) as [p|] eqn:E; [|done]
    end;
    match goal with
    | |- context [firstMalformed ?ps ?v'] =>
        apply (firstMalformed_uniform _ _ v') in E;
        by destruct (firstMalformed ps v')
    end.
Qed.

Lemma earlier_records_excluded d d' fs e :
  snd (filterLoop d fs true) = Some e →
  snd (filterLoop d' fs true) = None →
  filterLoop d' fs true = (false, None).
Proof.
  intros He Hn.
  destruct (filterLoop d fs true) as [b oe] eqn:E. simpl in He. subst oe.
  apply filterLoop_err_inv in E as (pre & f & post & -> & _ & Hf).
  destruct (filterLoop d' (pre ++ Some f :: post) true) as [[|] oe'] eqn:E';
    simpl in Hn; subst oe'; [exfalso|done].
  assert (Hpre := filterLoop_prefix_survives _ _ _ E').
  destruct (clauseError f d') as [e'|] eqn:Ef'.
  - by rewrite (filterLoop_reaches_invalid _ _ _ _ _ _ Hpre Ef') in E'.
  - by apply (clauseError_uniform _ _ d') in Hf.
Qed.

(** C10, amended. When the filter returns an error, the sequence beside
    it is the accumulator: the survivors among the records processed
    before the failing one.  A clause that is invalid is invalid for every
    record that reaches it, so none of those records survived: the
    sequence is the empty, non-nil slice, and differs from the input.  The
    read operation drops it and returns the error alone. *)
Theorem filter_error_returns_empty_accumulator r s fs out e :
  applyFilterOnDatabases s fs = (out, Some e) →
  (∃ ds1 d ds2,
      elems s = (ds1 ++ d :: ds2)%list
      ∧ (∀ d', d' ∈ ds1 → filterLoop d' fs true = (false, None))
      ∧ snd (filterLoop d fs true) = Some e
      ∧ out = Some (List.filter (fun d' => fst (filterLoop d' fs true)) ds1))
  ∧ out = Some []
  ∧ out ≠ s
  ∧ (fetched r s → rd_filters r = fs →
     dataSourceSqlDatabasesRead r = (r, Some e)).
Proof.
  intros H.
  destruct (applyFilterOnDatabases_err_inv _ _ _ _ _ H)
    as (ds1 & d & ds2 & Es & H1 & He & ->).
  assert (∀ d', d' ∈ ds1 → filterLoop d' fs true = (false, None)) as Hex.
  { intros d' Hd'. eapply earlier_records_excluded; eauto. }
  assert (∀ (P : Database → bool), (∀ d', d' ∈ ds1 → P d' = false) →
          List.filter P ds1 = []) as Hnil.
  { intros P. clear. induction ds1 as [|x l IH]; simpl; intros Hl; [done|].
    rewrite (Hl x) by left. apply IH. intros; apply Hl; by right. }
  assert (List.filter (spec_survives fs) ds1 = []) as Hs.
  { apply Hnil. intros d' Hd'. by rewrite (filterLoop_ok _ _ _ _ _ (Hex d' Hd')). }
  split_and!.
  - exists ds1, d, ds2. split_and!; try done.
    rewrite Hs. symmetry. f_equal. apply Hnil.
    intros d' Hd'. by rewrite (Hex d' Hd').
  - by rewrite Hs.
  - rewrite Hs. intros <-. by destruct ds1.
  - intros Hfetch Hfs. eapply read_filter_error; [done|]. by rewrite Hfs.
Qed.

End ReadFacts.

(** ** The projector *)

Lemma flattenLoop_map l (acc : list (gmap string string)) :
  fold_left (fun databases rawDatabase => (databases ++ [flattenDatabase rawDatabase])%list) l acc
  = (acc ++ map flattenDatabase l)%list.
Proof.
  revert acc. induction l as [|d l IH]; simpl; intros acc; [by rewrite app_nil_r|].
  by rewrite IH, <- app_assoc.
Qed.

Lemma flattenDatabases_map l :
  flattenDatabases (Some l) = Some (map flattenDatabase l).
Proof. unfold flattenDatabases. by rewrite flattenLoop_map. Qed.

Lemma flattenDatabase_dom d :
  dom (flattenDatabase d)
  = ({[ "project"; "instance"; "name"; "charset"; "collation"; "self_link" ]} : gset string).
Proof.
  unfold flattenDatabase. rewrite !dom_insert_L, dom_empty_L. set_solver.
Qed.

(** C7. The projector is a total function that always returns a non-nil
    sequence, the nil input included; the output is as long as the input,
    its i-th entry has exactly the six keys [project], [instance], [name],
    [charset], [collation], [self_link], each holding the field of the i-th
    input record; an input without records gives the empty sequence. *)
Theorem flattenDatabases_total_projection (s : option (list Database)) :
  ∃ out : list (gmap string string),
    flattenDatabases s = Some out
    ∧ length out = len s
    ∧ (len s = 0 → out = [])
    ∧ ∀ (i : nat) (d : Database), elems s !! i = Some d →
        ∃ m : gmap string string,
          out !! i = Some m
          ∧ dom m = ({[ "project"; "instance"; "name"; "charset"; "collation";
                        "self_link" ]} : gset string)
          ∧ m !! "project" = Some (Project d)
          ∧ m !! "instance" = Some (Instance d)
          ∧ m !! "name" = Some (Name d)
          ∧ m !! "charset" = Some (Charset d)
          ∧ m !! "collation" = Some (Collation d)
          ∧ m !! "self_link" = Some (SelfLink d).
Proof.
  destruct s as [l|].
  - exists (map flattenDatabase l). rewrite flattenDatabases_map. simpl.
    split; [done|]. split; [by rewrite length_map|]. split; [by destruct l|].
    intros i d Hi. exists (flattenDatabase d).
    split; [change (map flattenDatabase l) with (flattenDatabase <$> l);
            by rewrite list_lookup_fmap, Hi|].
    split; [apply flattenDatabase_dom|].
    unfold flattenDatabase. by split_and!; simplify_map_eq.
  - exists []. simpl. split; [done|]. split; [done|]. split; [done|].
    intros i d Hi. by destruct i.
Qed.

(** ** The state-reconciliation check *)

Lemma string_app_assoc (a b c : string) : (a +:+ b) +:+ c = a +:+ (b +:+ c).
Proof.
  induction a as [|x a IH]; [done|].
  change (String x ((a +:+ b) +:+ c) = String x (a +:+ (b +:+ c))). by rewrite IH.
Qed.

Lemma string_app_cons (x : ascii) (a b : string) : String x a +:+ b = String x (a +:+ b).
Proof. done. Qed.

Lemma string_app_nil_r (a : string) : a +:+ "" = a.
Proof. induction a as [|x a IH]; [done|]. by rewrite string_app_cons, IH. Qed.

Lemma contains_unfold (s sub : string) :
  contains s sub =
  hasPrefix sub s || match s with EmptyString => false | String _ s' => contains s' sub end.
Proof. by destruct s. Qed.

Lemma hasPrefix_app (p s : string) : hasPrefix p (p +:+ s) = true.
Proof.
  induction p as [|a p IH]; [done|].
  rewrite string_app_cons. simpl. by rewrite Ascii.eqb_refl, IH.
Qed.

Lemma contains_app_l (a b : string) : contains (a +:+ b) a = true.
Proof. by rewrite contains_unfold, hasPrefix_app. Qed.

Lemma contains_app_skip (a b sub : string) :
  contains b sub = true → contains (a +:+ b) sub = true.
Proof.
  intros H. induction a as [|c a IH]; [done|].
  rewrite string_app_cons. simpl. rewrite IH. apply orb_true_r.
Qed.

Lemma lastByte_None (k : string) : lastByte k = None ↔ k = "".
Proof.
  split; [|by intros ->].
  induction k as [|c k IH]; [done|]. simpl. destruct k; [done|]. intros H.
  by apply IH in H.
Qed.

Lemma lastByte_hash (k : string) : lastByte k = Some "#" ↔ endsInHash k.
Proof.
  unfold endsInHash. split.
  - induction k as [|c k IH]; [done|]. simpl. destruct k as [|c' k].
    + intros [= ->]. by exists "".
    + intros H. destruct (IH H) as [k' Hk']. exists (String c k'). simpl. by rewrite Hk'.
  - intros [k' ->]. induction k' as [|c k' IH]; [done|].
    simpl. destruct k'; simpl in *; done.
Qed.

Lemma isBlankOrZero_spec (s : string) : isBlankOrZero s = true ↔ representsEmpty s.
Proof.
  unfold isBlankOrZero, representsEmpty.
  rewrite orb_true_iff, !String.eqb_eq. tauto.
Qed.

Lemma fieldAgreesb_spec (k actual want : string) :
  fieldAgreesb k actual want = true ↔ fieldAgrees k actual want.
Proof.
  unfold fieldAgreesb, fieldAgrees.
  rewrite orb_true_iff, !andb_true_iff, String.eqb_eq, !isBlankOrZero_spec,
    <- lastByte_hash.
  destruct (lastByte k) as [suffix|].
  - rewrite String.eqb_eq. split.
    + intros [?|[[-> ?] ?]]; auto.
    + intros [?|[[= ->] [? ?]]]; auto.
  - split.
    + intros [?|[[? ?] ?]]; [auto|done].
    + intros [?|[? ?]]; [auto|done].
Qed.

Lemma mismatchLine_nonempty (k actual want : string) : mismatchLine k actual want ≠ "".
Proof. unfold mismatchLine. by destruct k. Qed.

Section CheckFacts.

Variables (dsAttr : gmap string string) (index : string) (ignoreFields : gset string).

Local Abbreviation mismatched := (mismatched dsAttr index ignoreFields).
Local Abbreviation mismatchReport := (mismatchReport dsAttr index ignoreFields).
Local Abbreviation fieldsLoop := (fieldsLoop dsAttr index ignoreFields).

Lemma mismatched_spec k v :
  mismatched (k, v) = false ↔
  (k ∉ ignoreFields → k ≠ "%" → fieldAgrees k (get dsAttr (entryKey index k)) v).
Proof.
  unfold mismatched, checkedField. simpl.
  rewrite <- fieldAgreesb_spec.
  destruct (bool_decide_reflect (k ∈ ignoreFields)) as [Hi|Hi]; simpl.
  { split; [by intros _ ?|done]. }
  destruct (String.eqb_spec k "%") as [-> | Hp]; simpl.
  { split; [by intros _ _ ?|done]. }
  destruct (fieldAgreesb k (get dsAttr (entryKey index k)) v); simpl.
  - split; done.
  - split; [done|]. intros H. by specialize (H Hi Hp).
Qed.

(** The loop of the check: it panics when a mismatched field has the empty
    name, and otherwise appends one line per mismatched field. *)
Lemma fieldsLoop_char kvs errMsg :
  fieldsLoop kvs errMsg =
  if existsb (fun kv => mismatched kv && String.eqb (fst kv) "") kvs
  then None
  else Some (errMsg +:+ mismatchReport kvs).
Proof.
  revert errMsg. induction kvs as [|[k v] kvs IH]; intros errMsg.
  - simpl. unfold mismatchReport. simpl. by rewrite string_app_nil_r.
  - simpl. unfold mismatchReport, mismatched, checkedField, fieldAgreesb in *.
    simpl.
    destruct (bool_decide (k ∈ ignoreFields)); simpl; [apply IH|].
    destruct (String.eqb k "%"); simpl; [apply IH|].
    destruct (String.eqb (get dsAttr (entryKey index k)) v); simpl; [apply IH|].
    destruct (lastByte k) as [suffix|] eqn:El.
    + assert (String.eqb k "" = false) as ->.
      { apply String.eqb_neq. intros ->. done. }
      rewrite andb_false_r. simpl.
      destruct (String.eqb suffix "#" && isBlankOrZero (get dsAttr (entryKey index k))
                && isBlankOrZero v); simpl; [apply IH|].
      rewrite IH. by rewrite string_app_assoc.
    + apply lastByte_None in El. subst k. done.
Qed.

Lemma mismatchReport_empty kvs :
  mismatchReport kvs = "" ↔ ∀ kv, kv ∈ kvs → mismatched kv = false.
Proof.
  unfold mismatchReport. induction kvs as [|kv kvs IH]; simpl.
  - split; [|done]. intros _ kv H. by apply elem_of_nil in H.
  - destruct (mismatched kv) eqn:E; simpl.
    + split.
      * intros H. exfalso.
        destruct (mismatchLine kv.1 (get dsAttr (entryKey index kv.1)) kv.2) eqn:El;
          [by apply mismatchLine_nonempty in El|done].
      * intros H. specialize (H kv ltac:(left)). congruence.
    + rewrite IH. split.
      * intros H x Hx. apply elem_of_cons in Hx as [-> | Hx]; auto.
      * intros H x Hx. apply H. by right.
Qed.

Lemma mismatchReport_contains kvs kv :
  kv ∈ kvs → mismatched kv = true →
  contains (mismatchReport kvs)
    (mismatchLine (fst kv) (get dsAttr (entryKey index (fst kv))) (snd kv)) = true.
Proof.
  unfold mismatchReport. intros Hin Hm.
  induction kvs as [|x kvs IH]; [by apply elem_of_nil in Hin|].
  simpl. apply elem_of_cons in Hin as [<- | Hin].
  - rewrite Hm. simpl. apply contains_app_l.
  - destruct (mismatched x); simpl; [apply contains_app_skip|]; by apply IH.
Qed.

End CheckFacts.

(** *** The search for the entry *)

Lemma Itoa_nonneg (i : Z) : (0 ≤ i)%Z → Itoa i ≠ "-1".
Proof.
  intros Hi E. change "-1" with (pretty (-1)%Z) in E. unfold Itoa in E.
  apply (inj pretty) in E. lia.
Qed.

Lemma findLoop_spec (dsAttr rsAttr : gmap string string) (l : list Z) (start : string) :
  let found i :=
    get dsAttr ("databases." +:+ Itoa i +:+ ".name") = get rsAttr "name" in
  let step index i :=
    if String.eqb (get dsAttr ("databases." +:+ Itoa i +:+ ".name")) (get rsAttr "name")
    then Itoa i else index in
  (fold_left step l start = start ∧ ∀ i, i ∈ l → ¬ found i)
  ∨ (∃ l1 i l2, l = (l1 ++ i :: l2)%list ∧ found i ∧ (∀ j, j ∈ l2 → ¬ found j)
                ∧ fold_left step l start = Itoa i).
Proof.
  intros found step. induction l as [|x l IH] using rev_ind.
  - left. split; [done|]. intros i Hi. by apply elem_of_nil in Hi.
  - rewrite fold_left_app. simpl.
    assert (step (fold_left step l start) x
            = if String.eqb (get dsAttr ("databases." +:+ Itoa x +:+ ".name"))
                   (get rsAttr "name")
              then Itoa x else fold_left step l start) as -> by done.
    destruct (String.eqb_spec (get dsAttr ("databases." +:+ Itoa x +:+ ".name"))
                (get rsAttr "name")) as [Hx|Hx].
    + right. exists l, x, []. split_and!; try done.
      intros j Hj. by apply elem_of_nil in Hj.
    + destruct IH as [[Hs Hno]|(l1 & i & l2 & -> & Hi & Hl2 & Hs)].
      * left. split; [done|]. intros i Hi.
        apply elem_of_app in Hi as [Hi|Hi]; [by apply Hno|].
        apply list_elem_of_singleton in Hi. by subst i.
      * right. exists l1, i, (l2 ++ [x])%list. split_and!; try done.
        -- by rewrite <- app_assoc.
        -- intros j Hj. apply elem_of_app in Hj as [Hj|Hj]; [by apply Hl2|].
           apply list_elem_of_singleton in Hj. by subst j.
Qed.

(** The entry is found exactly when some position below the count carries
    the name of the resource, and [index] is then such a position. *)
Lemma findIndex_found (dsAttr rsAttr : gmap string string) (totalInstances : Z) :
  findIndex dsAttr rsAttr totalInstances ≠ "-1" ↔
  ∃ i, (0 ≤ i < totalInstances)%Z
       ∧ findIndex dsAttr rsAttr totalInstances = Itoa i
       ∧ get dsAttr ("databases." +:+ Itoa i +:+ ".name") = get rsAttr "name".
Proof.
  unfold findIndex.
  destruct (findLoop_spec dsAttr rsAttr (seqZ 0 totalInstances) "-1")
    as [[Hs Hno]|(l1 & i & l2 & El & Hi & _ & Hs)].
  - rewrite Hs. split; [done|]. intros (i & Hr & _ & Hi). exfalso.
    apply (Hno i); [|done]. apply elem_of_seqZ. lia.
  - assert (i ∈ seqZ 0 totalInstances) as Hin.
    { rewrite El. apply elem_of_app. right. by left. }
    apply elem_of_seqZ in Hin.
    split.
    + intros _. exists i. split_and!; [lia|lia|done|done].
    + intros _. rewrite Hs. apply Itoa_nonneg. lia.
Qed.

(** C8. Once the entry named like the resource is found, the check returns
    no error exactly when every resource field that is neither ignored nor
    the [%] marker agrees with the entry: equal values, or a field whose
    name ends in [#] with both sides blank or ["0"].  An error it returns is
    the report with one line per disagreeing field, carrying the field, the
    actual and the expected value, for all of them and not only the first. *)
Theorem fields_check_reports_every_mismatch
    (dsAttr rsAttr : gmap string string) (ignoreFields : gset string)
    (order : list (string * string)) (totalInstances : Z) :
  order ≡ₚ map_to_list rsAttr →
  Atoi (get dsAttr "databases.#") = Some totalInstances →
  findIndex dsAttr rsAttr totalInstances ≠ "-1" →
  let index := findIndex dsAttr rsAttr totalInstances in
  let actual k := get dsAttr (entryKey index k) in
  let report := mismatchReport dsAttr index ignoreFields order in
  let result :=
    checkDatabaseFieldsMatchForDataSourceStateAndResourceState
      dsAttr rsAttr ignoreFields order in
  (result = Returns None ↔
     ∀ k v, rsAttr !! k = Some v → k ∉ ignoreFields → k ≠ "%" →
            fieldAgrees k (actual k) v)
  ∧ (∀ msg, result = Returns (Some msg) → msg = report)
  ∧ (rsAttr !! "" = None →
     result = Returns None ∨ result = Returns (Some report))
  ∧ (∀ k v, rsAttr !! k = Some v → k ∉ ignoreFields → k ≠ "%" →
            ¬ fieldAgrees k (actual k) v →
            contains report (mismatchLine k (actual k) v) = true).
Proof.
  intros Hperm Hatoi Hfound index actual report result.
  assert (∀ k v, (k, v) ∈ order ↔ rsAttr !! k = Some v) as Hmem.
  { intros k v. by rewrite Hperm, elem_of_map_to_list. }
  assert ((∀ kv, kv ∈ order → mismatched dsAttr index ignoreFields kv = false) ↔
          (∀ k v, rsAttr !! k = Some v → k ∉ ignoreFields → k ≠ "%" →
                  fieldAgrees k (actual k) v)) as Hall.
  { split.
    - intros H k v Hkv. apply mismatched_spec, H, Hmem, Hkv.
    - intros H [k v] Hkv. apply mismatched_spec, H, Hmem, Hkv. }
  assert (result =
          if existsb (fun kv => mismatched dsAttr index ignoreFields kv
                                && String.eqb (fst kv) "") order
          then Panics
          else if negb (String.eqb report "") then Returns (Some report)
               else Returns None) as Hres.
  { unfold result, checkDatabaseFieldsMatchForDataSourceStateAndResourceState.
    rewrite Hatoi. fold index.
    destruct (String.eqb_spec index "-1") as [E|_]; [done|].
    rewrite fieldsLoop_char.
    by destruct (existsb _ order). }
  destruct (existsb _ order) eqn:Epanic.
  - (* a mismatched field with the empty name *)
    apply existsb_exists in Epanic as ([k v] & Hin & Hk).
    apply andb_true_iff in Hk as [Hm Hk]. simpl in Hk.
    apply String.eqb_eq in Hk. subst k.
    apply list_elem_of_In in Hin.
    split_and!.
    + rewrite Hres. split; [done|]. intros H.
      rewrite (proj2 Hall H _ Hin) in Hm. done.
    + intros msg. by rewrite Hres.
    + intros Hnone. apply Hmem in Hin. congruence.
    + intros k' v' Hkv Hi Hp Hne.
      apply (mismatchReport_contains dsAttr index ignoreFields order (k', v'));
        [by apply Hmem|].
      destruct (mismatched dsAttr index ignoreFields (k', v')) eqn:E; [done|].
      exfalso. apply Hne. by apply (mismatched_spec dsAttr index ignoreFields k' v').
  - split_and!.
    + rewrite Hres, <- Hall, <- mismatchReport_empty. fold report.
      destruct (String.eqb_spec report ""); simpl; split; congruence.
    + intros msg. rewrite Hres.
      destruct (String.eqb report ""); simpl; congruence.
    + intros _. rewrite Hres. destruct (String.eqb report ""); simpl; auto.
    + intros k' v' Hkv Hi Hp Hne.
      apply (mismatchReport_contains dsAttr index ignoreFields order (k', v'));
        [by apply Hmem|].
      destruct (mismatched dsAttr index ignoreFields (k', v')) eqn:E; [done|].
      exfalso. apply Hne. by apply (mismatched_spec dsAttr index ignoreFields k' v').
Qed.

(** * The scenarios *)

Example matchString_digit1 : Regexp.MatchString ".*[0-9]" "mysql-db1" = Some true.
Proof. reflexivity. Qed.
Example matchString_two1 : Regexp.MatchString ".*2" "mysql-db1" = Some false.
Proof. reflexivity. Qed.
Example matchString_two2 : Regexp.MatchString ".*2" "mysql-db2" = Some true.
Proof. reflexivity. Qed.
Example matchString_mb4 : Regexp.MatchString ".*mb4" "utf8mb4" = Some true.
Proof. reflexivity. Qed.
Example matchString_alt : Regexp.MatchString "(ab|c)+d" "xxabcabd" = Some true.
Proof. reflexivity. Qed.
Example matchString_class : Regexp.MatchString "db[^0-9]" "mysql-db1" = Some false.
Proof. reflexivity. Qed.
Example matchString_open_class : Regexp.MatchString "[" "mysql-db1" = None.
Proof. reflexivity. Qed.
Example matchString_open_group : Regexp.MatchString "(" "mysql-db1" = None.
Proof. reflexivity. Qed.
Example matchString_no_argument : Regexp.MatchString "*" "mysql-db1" = None.
Proof. reflexivity. Qed.
Example matchString_nested_star : Regexp.MatchString "a**" "mysql-db1" = None.
Proof. reflexivity. Qed.

(** Scenario C of the specification: name and charset clauses. *)
Example scenario_name_and_charset :
  applyFilterOnDatabases Regexp.MatchString (Some [db1; db2; db3])
    [Some nameOnlyFilter; Some charsetFilter]
  = (Some [db1; db2], None).
Proof. reflexivity. Qed.

(** C5. Of three records named [mysql-db1], [mysql-db2], [mysql-db3], the
    clause on [name] with include pattern [.*[0-9]] and exclude patterns
    [.*2], [.*3] keeps exactly the first; the other two are not in the
    output. *)
Theorem scenario_name_filter (d1 d2 d3 : Database) :
  Name d1 = "mysql-db1" → Name d2 = "mysql-db2" → Name d3 = "mysql-db3" →
  applyFilterOnDatabases Regexp.MatchString (Some [d1; d2; d3]) [Some nameFilter]
  = (Some [d1], None)
  ∧ (d2 ∉ [d1]) ∧ (d3 ∉ [d1]).
Proof.
  intros H1 H2 H3. split_and!.
  - unfold applyFilterOnDatabases. cbn -[Regexp.MatchString].
    rewrite H1, H2, H3. reflexivity.
  - intros ->%list_elem_of_singleton. congruence.
  - intros ->%list_elem_of_singleton. congruence.
Qed.

Lemma scenario_name_filter_witness :
  applyFilterOnDatabases Regexp.MatchString (Some [db1; db2; db3]) [Some nameFilter]
  = (Some [db1], None)
  ∧ (db2 ∉ [db1]) ∧ (db3 ∉ [db1]).
Proof. apply (scenario_name_filter db1 db2 db3); reflexivity. Defined.

(** *** Instances of the pipeline theorems *)

Lemma exclude_dominance_witness : db2 ∉ [db1].
Proof.
  apply (exclude_dominance Regexp.MatchString (Some [db1; db2; db3]) [Some nameFilter]
           (Some [db1]) db2 nameFilter "mysql-db2" ".*2").
  - reflexivity.
  - left.
  - reflexivity.
  - simpl. left.
  - reflexivity.
Defined.

Lemma filter_output_is_passing_subsequence_witness :
  [db1] = List.filter (spec_survives Regexp.MatchString [Some nameFilter]) [db1; db2; db3]
  ∧ 1 = length (List.filter (spec_survives Regexp.MatchString [Some nameFilter])
                  [db1; db2; db3])
  ∧ sublist [db1] [db1; db2; db3].
Proof.
  apply (filter_output_is_passing_subsequence Regexp.MatchString
           (Some [db1; db2; db3]) [Some nameFilter] (Some [db1])).
  reflexivity.
Defined.

Lemma filter_identity_and_neutral_clause_witness :
  applyFilterOnDatabases Regexp.MatchString (Some [db1; db2; db3])
    [Some nameOnlyFilter; Some (mkFilter "collation" [] []); Some charsetFilter]
  = applyFilterOnDatabases Regexp.MatchString (Some [db1; db2; db3])
      [Some nameOnlyFilter; Some charsetFilter].
Proof.
  apply (proj2 (proj2 (proj2 (filter_identity_and_neutral_clause Regexp.MatchString)))
           (Some [db1; db2; db3]) [Some nameOnlyFilter] [Some charsetFilter]
           (mkFilter "collation" [] [])).
  - right. right. reflexivity.
  - reflexivity.
  - reflexivity.
Defined.

Lemma clause_errors_are_lazy_witness :
  filterLoop Regexp.MatchString db1
    [Some excludeOneFilter; Some openClassFilter; Some unknownFieldFilter] true
  = (false, None).
Proof.
  apply (proj1 (proj2 (clause_errors_are_lazy Regexp.MatchString))
           db1 [Some excludeOneFilter] [Some openClassFilter; Some unknownFieldFilter]).
  reflexivity.
Defined.

(** *** Instances of the read theorems *)

Lemma fetched_listReturns items clauses :
  fetched okUserAgent okProject (listReturns items) (request clauses) items.
Proof. exists "Terraform/1.0", "my-project". by split_and!. Defined.

Lemma malformed_pattern_fails_when_reached_witness :
  applyFilterOnDatabases Regexp.MatchString (Some [db1; db2; db3])
    [Some excludeOneFilter; Some openClassFilter]
  = (Some [], Some "Invalid regex [")
  ∧ readOf (Some [db1; db2; db3]) (request [Some excludeOneFilter; Some openClassFilter])
    = (request [Some excludeOneFilter; Some openClassFilter], Some "Invalid regex [").
Proof.
  destruct (malformed_pattern_fails_when_reached Regexp.MatchString
              okUserAgent okProject (listReturns (Some [db1; db2; db3]))
              notFoundAsError plainQuote
              (request [Some excludeOneFilter; Some openClassFilter])
              [db1] db2 [db3] [Some excludeOneFilter] openClassFilter []
              "mysql-db2" "[") as (_ & Happ & _ & Hread).
  - apply fetched_listReturns.
  - reflexivity.
  - intros d' Hd'. apply list_elem_of_singleton in Hd'. subst d'. reflexivity.
  - reflexivity.
  - reflexivity.
  - reflexivity.
  - split; [exact Happ | exact Hread].
Defined.

Lemma unknown_field_fails_when_reached_witness :
  applyFilterOnDatabases Regexp.MatchString (Some [db1; db2; db3])
    [Some excludeOneFilter; Some unknownFieldFilter]
  = (Some [], Some "Invalid filter")
  ∧ readOf (Some [db1; db2; db3]) (request [Some excludeOneFilter; Some unknownFieldFilter])
    = (request [Some excludeOneFilter; Some unknownFieldFilter], Some "Invalid filter").
Proof.
  apply (unknown_field_fails_when_reached Regexp.MatchString
           okUserAgent okProject (listReturns (Some [db1; db2; db3]))
           notFoundAsError plainQuote
           (request [Some excludeOneFilter; Some unknownFieldFilter])
           [db1] db2 [db3] [Some excludeOneFilter] unknownFieldFilter []).
  - apply fetched_listReturns.
  - reflexivity.
  - discriminate.
  - discriminate.
  - discriminate.
  - intros d' Hd'. apply list_elem_of_singleton in Hd'. subst d'. reflexivity.
  - reflexivity.
Defined.

Lemma filter_error_returns_empty_accumulator_witness :
  Some [] ≠ Some [db1; db2; db3]
  ∧ readOf (Some [db1; db2; db3]) (request [Some excludeOneFilter; Some unknownFieldFilter])
    = (request [Some excludeOneFilter; Some unknownFieldFilter], Some "Invalid filter").
Proof.
  destruct (filter_error_returns_empty_accumulator Regexp.MatchString
              okUserAgent okProject (listReturns (Some [db1; db2; db3]))
              notFoundAsError plainQuote RegexpFacts.MatchString_error_uniform
              (request [Some excludeOneFilter; Some unknownFieldFilter])
              (Some [db1; db2; db3]) [Some excludeOneFilter; Some unknownFieldFilter]
              (Some []) "Invalid filter") as (_ & _ & Hne & Hread).
  - reflexivity.
  - split; [exact Hne|]. apply Hread; [apply fetched_listReturns | reflexivity].
Defined.

(** *** Where the claims as worded fail *)

(** C3 as worded fails: a clause list holding a pattern that does not
    compile raises no error when there is no record, nor when every record
    is excluded before its clause is reached; the read operation then
    succeeds and stores the result. *)
Lemma malformed_pattern_unnoticed :
  Regexp.MatchString "[" "mysql-db1" = None
  ∧ applyFilterOnDatabases Regexp.MatchString (Some []) [Some openClassFilter]
    = (Some [], None)
  ∧ applyFilterOnDatabases Regexp.MatchString (Some [db1])
      [Some excludeOneFilter; Some openClassFilter]
    = (Some [], None)
  ∧ readOf (Some [db1]) (request [Some excludeOneFilter; Some openClassFilter])
    = (mkResourceData "tf-test-instance" [Some excludeOneFilter; Some openClassFilter]
         (Some []) "projects/my-project/instances/tf-test-instance/101",
       None).
Proof. split_and!; reflexivity. Qed.

(** C4 as worded fails: a clause on a field other than the three raises no
    error when there is no record; when it does, the message is the fixed
    ["Invalid filter"], which does not contain the field name. *)
Lemma unknown_field_unnoticed_and_unnamed :
  name unknownFieldFilter = "self_link"
  ∧ applyFilterOnDatabases Regexp.MatchString (Some []) [Some unknownFieldFilter]
    = (Some [], None)
  ∧ applyFilterOnDatabases Regexp.MatchString (Some [db1]) [Some unknownFieldFilter]
    = (Some [], Some "Invalid filter")
  ∧ contains "Invalid filter" (name unknownFieldFilter) = false.
Proof. split_and!; reflexivity. Qed.

(** C10 as worded fails: the sequence returned beside an error is empty,
    also when a record was processed before the failing one. *)
Lemma filter_error_beside_empty_sequence :
  applyFilterOnDatabases Regexp.MatchString (Some [db1; db2])
    [Some excludeOneFilter; Some unknownFieldFilter]
  = (Some [], Some "Invalid filter")
  ∧ applyFilterOnDatabases Regexp.MatchString (Some [db1; db2]) [Some openClassFilter]
    = (Some [], Some "Invalid regex [").
Proof. split; reflexivity. Qed.

(** *** Instances of the projector and of the check *)

Lemma flattenDatabases_total_projection_witness :
  ∃ out : list (gmap string string),
    flattenDatabases (Some [db1]) = Some out ∧ length out = 1.
Proof.
  destruct (flattenDatabases_total_projection (Some [db1])) as (out & Hout & Hlen & _).
  exists out. split; [exact Hout | exact Hlen].
Defined.

Example flattenDatabases_nil : flattenDatabases None = Some [].
Proof. reflexivity. Qed.

Example check_basic_ok :
  checkDatabaseFieldsMatchForDataSourceStateAndResourceState
    pgDataSource pgResource basicIgnores (map_to_list pgResource)
  = Returns None.
Proof. vm_compute. reflexivity. Qed.

Example check_drifted_reports_both :
  checkDatabaseFieldsMatchForDataSourceStateAndResourceState
    pgDataSourceDrifted pgResource basicIgnores (map_to_list pgResource)
  = Returns (Some ("collation is C; want en_US.UTF8" +:+ newline
                   +:+ "charset is LATIN1; want UTF8" +:+ newline)).
Proof. vm_compute. reflexivity. Qed.

(** A count field that is ["0"] on one side and missing on the other is
    not a mismatch. *)
Example check_tolerates_empty_count :
  checkDatabaseFieldsMatchForDataSourceStateAndResourceState
    pgDataSource (<["labels.#" := "0"]> pgResource) basicIgnores
    (map_to_list (<["labels.#" := "0"]> pgResource))
  = Returns None.
Proof. vm_compute. reflexivity. Qed.

Lemma fields_check_reports_every_mismatch_witness :
  contains (mismatchReport pgDataSourceDrifted "0" basicIgnores (map_to_list pgResource))
    (mismatchLine "charset" "LATIN1" "UTF8") = true.
Proof.
  destruct (fields_check_reports_every_mismatch pgDataSourceDrifted pgResource
              basicIgnores (map_to_list pgResource) 1) as (_ & _ & _ & H).
  - reflexivity.
  - reflexivity.
  - vm_compute. discriminate.
  - apply (H "charset" "UTF8").
    + reflexivity.
    + vm_compute. discriminate.
    + discriminate.
    + intros [Heq | [Hh _]].
      * vm_compute in Heq. discriminate.
      * apply lastByte_hash in Hh. vm_compute in Hh. discriminate.
Defined.

(** * Further properties of the filter *)

Section PipelineLaws.

Variable MatchString : string → string → option bool.

Local Abbreviation regexMatch := (regexMatch MatchString).
Local Abbreviation filterLoop := (filterLoop MatchString).
Local Abbreviation databasesLoop := (databasesLoop MatchString).
Local Abbreviation applyFilterOnDatabases := (applyFilterOnDatabases MatchString).
Local Abbreviation spec_survives := (spec_survives MatchString).
Local Abbreviation firstMalformed := (firstMalformed MatchString).

(** The result the filter has when no record raises an error. *)
Local Abbreviation filtered fs s :=
  (match s with
   | None => None
   | Some l => Some (List.filter (spec_survives fs) l)
   end).

Lemma excludeLoop_never_raises ps v inc :
  fst (excludeLoop MatchString ps v inc) = true → inc = true.
Proof.
  revert inc. induction ps as [|p ps IH]; simpl; intros inc H; [done|].
  destruct (MatchString p v) as [[|]|]; simpl in H; [|by apply IH|done].
  by apply IH in H.
Qed.

(** X1. [regexMatch] only ever lowers [include]: whatever the patterns, and
    also when it returns an error, the flag it returns is true only if the
    flag it was given was. *)
Theorem regexMatch_never_raises_include f v inc :
  fst (regexMatch f v inc) = true → inc = true.
Proof.
  unfold regexMatch.
  destruct (includeLoop MatchString (values f) v false) as [b|e]; [|done].
  intros H. apply excludeLoop_never_raises in H.
  destruct (Nat.ltb 0 (length (values f))); [|done].
  by apply andb_true_iff in H as [? _].
Qed.

(** X2. [regexMatch] returns an error exactly when one of the clause's
    patterns does not compile, and the message names the first such pattern,
    include patterns before exclude patterns.  Neither the incoming
    [include] nor a pattern that already matched stops the later patterns
    from being compiled. *)
Theorem regexMatch_error_is_first_malformed f v inc :
  snd (regexMatch f v inc)
  = (fun p => "Invalid regex " +:+ p) <$> firstMalformed (patternsOf f) v.
Proof.
  destruct (firstMalformed (patternsOf f) v) as [p|] eqn:E; simpl.
  - by apply regexMatch_malformed.
  - by rewrite regexMatch_wellformed.
Qed.

(** *** Success of the filter, record by record *)

Lemma applyFilterOnDatabases_success s fs :
  (∀ d, d ∈ elems s → snd (filterLoop d fs true) = None) →
  applyFilterOnDatabases s fs = (filtered fs s, None).
Proof.
  intros H. destruct s as [[|d ds]|]; try done.
  rewrite applyFilterOnDatabases_cons, databasesLoop_noerr; done.
Qed.

Lemma applyFilterOnDatabases_success_inv s fs out :
  applyFilterOnDatabases s fs = (out, None) →
  (∀ d, d ∈ elems s → snd (filterLoop d fs true) = None) ∧ out = filtered fs s.
Proof.
  intros H.
  assert (∀ d, d ∈ elems s → snd (filterLoop d fs true) = None) as Hno.
  { destruct s as [[|d0 ds]|]; simpl; try (intros d Hd; by apply elem_of_nil in Hd).
    rewrite applyFilterOnDatabases_cons in H.
    destruct (databasesLoop (d0 :: ds) fs []) as [o e] eqn:E. simpl in H.
    inversion H; subst. by eapply databasesLoop_ok_inv. }
  split; [done|]. rewrite applyFilterOnDatabases_success in H by done. congruence.
Qed.

Lemma elems_filtered fs (s : option (list Database)) :
  elems (filtered fs s) = List.filter (spec_survives fs) (elems s).
Proof. by destruct s. Qed.

Lemma filterLoop_survivor d fs :
  snd (filterLoop d fs true) = None → spec_survives fs d = true →
  filterLoop d fs true = (true, None).
Proof.
  intros Hn Hs. destruct (filterLoop d fs true) as [b oe] eqn:E.
  simpl in Hn. subst oe. apply filterLoop_ok in E. by rewrite E, Hs.
Qed.

Lemma filterLoop_app_err d pre post inc b e :
  filterLoop d pre inc = (b, Some e) →
  filterLoop d (pre ++ post) inc = (b, Some e).
Proof.
  revert inc. induction pre as [|[f|] pre IH]; simpl; intros inc H; [done| |by apply IH].
  destruct inc; simpl in *; [|done].
  destruct (fieldOf f d) as [v|]; [|done].
  destruct (regexMatch f v true) as [i [e'|]]; [done|]. by apply IH.
Qed.

Lemma filterLoop_app_noerr d pre post :
  snd (filterLoop d (pre ++ post) true) = None ↔
  snd (filterLoop d pre true) = None
  ∧ (spec_survives pre d = true → snd (filterLoop d post true) = None).
Proof.
  destruct (filterLoop d pre true) as [b [e|]] eqn:E.
  - rewrite (filterLoop_app_err _ _ post _ _ _ E). simpl. split; [done|by intros [? _]].
  - rewrite (filterLoop_app _ _ _ post _ _ E). simpl.
    apply filterLoop_ok in E. simpl in E. subst b.
    destruct (spec_survives pre d).
    + split; [by split|]. intros [_ H]. by apply H.
    + rewrite filterLoop_false. simpl. split; [by split|done].
Qed.

Lemma spec_survives_app pre post d :
  spec_survives (pre ++ post) d = spec_survives pre d && spec_survives post d.
Proof. unfold spec_survives. apply forallb_app. Qed.

Lemma filter_filter {A} (P Q : A → bool) (l : list A) :
  List.filter Q (List.filter P l) = List.filter (fun x => P x && Q x) l.
Proof.
  induction l as [|x l IH]; simpl; [done|].
  destruct (P x); simpl; [|done]. destruct (Q x); by rewrite IH.
Qed.

Lemma filter_ext_eq {A} (P Q : A → bool) (l : list A) :
  (∀ x, P x = Q x) → List.filter P l = List.filter Q l.
Proof. intros H. induction l as [|x l IH]; simpl; [done|]. by rewrite H, IH. Qed.

Lemma filtered_app pre post s :
  filtered (pre ++ post) s = filtered post (filtered pre s).
Proof.
  destruct s as [l|]; [|done]. f_equal. rewrite filter_filter.
  apply filter_ext_eq. intros x. apply spec_survives_app.
Qed.

Lemma elem_of_filter_bool {A} (P : A → bool) (l : list A) x :
  x ∈ List.filter P l ↔ x ∈ l ∧ P x = true.
Proof. rewrite !list_elem_of_In. apply filter_In. Qed.

(** X3. Filtering is idempotent: a successful output, filtered again with
    the same clauses, comes back unchanged and without error. *)
Theorem filter_idempotent s fs out :
  applyFilterOnDatabases s fs = (out, None) →
  applyFilterOnDatabases out fs = (out, None).
Proof.
  intros H. apply applyFilterOnDatabases_success_inv in H as [Hno ->].
  rewrite applyFilterOnDatabases_success.
  - f_equal. destruct s as [l|]; [|done]. f_equal. rewrite filter_filter.
    apply filter_ext_eq. intros x. apply andb_diag.
  - intros d. rewrite elems_filtered, elem_of_filter_bool. intros [Hd _]. by apply Hno.
Qed.

(** X4. Clause lists compose: filtering with [fs1 ++ fs2] succeeds exactly
    when filtering with [fs1] succeeds and filtering its output with [fs2]
    succeeds, and the results are the same. *)
Theorem filter_composes s fs1 fs2 out :
  applyFilterOnDatabases s (fs1 ++ fs2) = (out, None) ↔
  ∃ mid, applyFilterOnDatabases s fs1 = (mid, None)
         ∧ applyFilterOnDatabases mid fs2 = (out, None).
Proof.
  split.
  - intros H. apply applyFilterOnDatabases_success_inv in H as [Hno ->].
    exists (filtered fs1 s). split.
    + apply applyFilterOnDatabases_success. intros d Hd.
      by apply (filterLoop_app_noerr d fs1 fs2), Hno.
    + rewrite filtered_app. apply applyFilterOnDatabases_success.
      intros d. rewrite elems_filtered, elem_of_filter_bool. intros [Hd Hs].
      by apply (filterLoop_app_noerr d fs1 fs2); [apply Hno|].
  - intros (mid & H1 & H2).
    apply applyFilterOnDatabases_success_inv in H1 as [Hno1 ->].
    apply applyFilterOnDatabases_success_inv in H2 as [Hno2 ->].
    rewrite <- filtered_app. apply applyFilterOnDatabases_success.
    intros d Hd. apply filterLoop_app_noerr. split; [by apply Hno1|].
    intros Hs. apply Hno2. rewrite elems_filtered, elem_of_filter_bool. by split.
Qed.

Lemma spec_survives_Permutation fs fs' d :
  fs ≡ₚ fs' → spec_survives fs d = spec_survives fs' d.
Proof.
  unfold spec_survives. induction 1 as [|c l l' _ IH|c c' l|l l' l'' _ IH1 _ IH2]; simpl.
  - done.
  - by rewrite IH.
  - by rewrite !andb_assoc, (andb_comm (spec_clause_includes _ d c')).
  - by rewrite IH1.
Qed.

(** X5. The order of the clauses does not change a successful result: two
    orderings of the same clauses that both succeed return the same
    sequence. *)
Theorem filter_clause_order_irrelevant s fs fs' out out' :
  fs ≡ₚ fs' →
  applyFilterOnDatabases s fs = (out, None) →
  applyFilterOnDatabases s fs' = (out', None) →
  out = out'.
Proof.
  intros Hp H H'.
  apply applyFilterOnDatabases_success_inv in H as [_ ->].
  apply applyFilterOnDatabases_success_inv in H' as [_ ->].
  destruct s as [l|]; [|done]. f_equal. apply filter_ext_eq.
  intros d. by apply spec_survives_Permutation.
Qed.

(** X6. More clauses only narrow the result: the output for [fs ++ fs'] is
    a subsequence of the output for [fs]. *)
Theorem filter_more_clauses_narrow s fs fs' out out' :
  applyFilterOnDatabases s fs = (out, None) →
  applyFilterOnDatabases s (fs ++ fs') = (out', None) →
  sublist (elems out') (elems out).
Proof.
  intros H H'.
  apply applyFilterOnDatabases_success_inv in H as [_ ->].
  apply applyFilterOnDatabases_success_inv in H' as [_ ->].
  rewrite filtered_app, (elems_filtered fs'). apply filter_sublist.
Qed.

Lemma filterLoop_skip_nil d fs inc :
  filterLoop d fs inc = filterLoop d (Some <$> omap id fs) inc.
Proof.
  revert inc. induction fs as [|[f|] fs IH]; simpl; intros inc; [done| |by apply IH].
  destruct (negb inc); [done|]. destruct (fieldOf f d) as [v|]; [|done].
  by destruct (regexMatch f v inc) as [i [e|]].
Qed.

(** X7. Nil entries of the clause list are skipped: the filter returns the
    same sequence and the same error with them as without them. *)
Theorem filter_skips_nil_clauses s fs :
  applyFilterOnDatabases s fs = applyFilterOnDatabases s (Some <$> omap id fs).
Proof.
  unfold applyFilterOnDatabases. destruct (Nat.eqb (len s) 0); [done|].
  rewrite (databasesLoop_ext _ _ _ (Some <$> omap id fs)); [done|].
  intros d. apply filterLoop_skip_nil.
Qed.

(** X8. Each record is judged on its own: filtering a concatenation
    succeeds exactly when filtering each part succeeds, and the output is
    the concatenation of the outputs. *)
Theorem filter_is_record_local l1 l2 fs out :
  applyFilterOnDatabases (Some (l1 ++ l2)%list) fs = (out, None) ↔
  ∃ out1 out2,
    applyFilterOnDatabases (Some l1) fs = (Some out1, None)
    ∧ applyFilterOnDatabases (Some l2) fs = (Some out2, None)
    ∧ out = Some (out1 ++ out2)%list.
Proof.
  split.
  - intros H. apply applyFilterOnDatabases_success_inv in H as [Hno ->].
    exists (List.filter (spec_survives fs) l1), (List.filter (spec_survives fs) l2).
    split_and!.
    + apply (applyFilterOnDatabases_success (Some l1)). intros d Hd.
      apply Hno. simpl. apply elem_of_app. by left.
    + apply (applyFilterOnDatabases_success (Some l2)). intros d Hd.
      apply Hno. simpl. apply elem_of_app. by right.
    + by rewrite List.filter_app.
  - intros (out1 & out2 & H1 & H2 & ->).
    apply applyFilterOnDatabases_success_inv in H1 as [Hno1 E1].
    apply applyFilterOnDatabases_success_inv in H2 as [Hno2 E2].
    simpl in *. inversion E1; inversion E2; subst.
    rewrite <- List.filter_app.
    apply (applyFilterOnDatabases_success (Some (l1 ++ l2)%list)). intros d Hd.
    simpl in Hd. apply elem_of_app in Hd as [Hd|Hd]; auto.
Qed.

End PipelineLaws.

(** * Further properties of the read operation *)

Lemma flattenDatabases_elems (s : option (list Database)) :
  flattenDatabases s = Some (map flattenDatabase (elems s)).
Proof. destruct s as [l|]; [apply flattenDatabases_map|done]. Qed.

Section ReadLaws.

Variable MatchString : string → string → option bool.
Variable generateUserAgentString : ResourceData → string * option error.
Variable getProject : ResourceData → string * option error.
Variable databasesList : string → string → string → option (list Database) * option error.
Variable handleNotFoundError : error → ResourceData → string → ResourceData * option error.
Variable quote : string → string.

Local Abbreviation filterLoop := (filterLoop MatchString).
Local Abbreviation applyFilterOnDatabases := (applyFilterOnDatabases MatchString).
Local Abbreviation spec_survives := (spec_survives MatchString).
Local Abbreviation dataSourceSqlDatabasesRead :=
  (dataSourceSqlDatabasesRead MatchString generateUserAgentString getProject
     databasesList handleNotFoundError quote).
Local Abbreviation fetched := (fetched generateUserAgentString getProject databasesList).

Lemma spec_survives_nil d : spec_survives [] d = true.
Proof. done. Qed.

(** X9. What a successful read stores: once the list call has returned
    [items], a read that returns no error has set ["databases"] to the
    projection of exactly the records passing every clause, in fetched
    order and never nil, has set the id to
    [projects/<project>/instances/<instance>/101], and has left the
    instance and the filters as they were. *)
Theorem read_stores_projection_of_survivors r r' userAgent project items :
  generateUserAgentString r = (userAgent, None) →
  getProject r = (project, None) →
  databasesList userAgent project (rd_instance r) = (items, None) →
  dataSourceSqlDatabasesRead r = (r', None) →
  r' = mkResourceData (rd_instance r) (rd_filters r)
         (Some (map flattenDatabase
                  (List.filter (spec_survives (rd_filters r)) (elems items))))
         ("projects/" +:+ project +:+ "/instances/" +:+ rd_instance r +:+ "/101").
Proof.
  intros Hua Hproj Hlist. unfold dataSourceSqlDatabasesRead.
  rewrite Hua, Hproj, Hlist.
  destruct (rd_filters r) as [|c cs] eqn:Ef.
  - intros [= <-]. rewrite flattenDatabases_elems.
    by rewrite (filter_true _ (elems items)).
  - destruct (applyFilterOnDatabases items (c :: cs)) as [out [e|]] eqn:Ea; [done|].
    intros [= <-]. rewrite flattenDatabases_elems.
    by rewrite (applyFilterOnDatabases_ok _ _ _ _ Ea).
Qed.

(** X10. When a read fails: once the list call has returned [items], the
    read returns an error exactly when some fetched record raises one in
    the clause loop.  With no clause, or with no record, it cannot fail. *)
Theorem read_fails_iff_a_record_fails r items :
  fetched r items →
  (snd (dataSourceSqlDatabasesRead r) = None ↔
   ∀ d, d ∈ elems items → snd (filterLoop d (rd_filters r) true) = None)
  ∧ (rd_filters r = [] ∨ elems items = [] → snd (dataSourceSqlDatabasesRead r) = None).
Proof.
  intros (ua & proj & Hua & Hproj & Hlist).
  assert (snd (dataSourceSqlDatabasesRead r) = None ↔
          ∀ d, d ∈ elems items → snd (filterLoop d (rd_filters r) true) = None) as Hiff.
  { unfold dataSourceSqlDatabasesRead. rewrite Hua, Hproj, Hlist.
    destruct (rd_filters r) as [|c cs] eqn:Ef; [done|].
    destruct (applyFilterOnDatabases items (c :: cs)) as [out [e|]] eqn:Ea; cbn [snd].
    - split; [done|]. intros H.
      by rewrite (applyFilterOnDatabases_success _ _ _ H) in Ea.
    - split; [|done]. intros _.
      by apply (applyFilterOnDatabases_success_inv _ _ _ _ Ea). }
  split; [exact Hiff|].
  intros [Hf|Hi]; apply Hiff.
  - rewrite Hf. done.
  - rewrite Hi. intros d Hd. by apply elem_of_nil in Hd.
Qed.

(** X11. No partial write: when the list call does not fail, a read that
    returns an error, from the user agent, the project or the filter,
    returns the resource data untouched. *)
Theorem read_error_leaves_data_untouched r r' e :
  (∀ userAgent project, snd (databasesList userAgent project (rd_instance r)) = None) →
  dataSourceSqlDatabasesRead r = (r', Some e) →
  r' = r.
Proof.
  intros Hlist. unfold dataSourceSqlDatabasesRead.
  destruct (generateUserAgentString r) as [ua [e1|]]; [by intros [= <- _]|].
  destruct (getProject r) as [proj [e2|]]; [by intros [= <- _]|].
  specialize (Hlist ua proj).
  destruct (databasesList ua proj (rd_instance r)) as [items oe]. simpl in Hlist. subst oe.
  destruct (rd_filters r) as [|c cs]; [done|].
  destruct (applyFilterOnDatabases items (c :: cs)) as [out [e3|]]; [|done].
  by intros [= <- _].
Qed.

End ReadLaws.

(** * Further properties of the state checks *)

Lemma check_result_char (dsAttr rsAttr : gmap string string) (ignoreFields : gset string)
    (order : list (string * string)) :
  checkDatabaseFieldsMatchForDataSourceStateAndResourceState dsAttr rsAttr ignoreFields order
  = match Atoi (get dsAttr "databases.#") with
    | None => Returns (Some countMessage)
    | Some n =>
        let index := findIndex dsAttr rsAttr n in
        if String.eqb index "-1" then Returns (Some notFoundMessage)
        else if existsb (fun kv => mismatched dsAttr index ignoreFields kv
                                   && String.eqb (fst kv) "") order
        then Panics
        else if String.eqb (mismatchReport dsAttr index ignoreFields order) ""
        then Returns None
        else Returns (Some (mismatchReport dsAttr index ignoreFields order))
    end.
Proof.
  unfold checkDatabaseFieldsMatchForDataSourceStateAndResourceState.
  destruct (Atoi (get dsAttr "databases.#")) as [n|]; [|done]. cbv zeta.
  destruct (String.eqb (findIndex dsAttr rsAttr n) "-1"); [done|].
  rewrite fieldsLoop_char.
  destruct (existsb _ order); [done|].
  change ("" +:+ mismatchReport dsAttr (findIndex dsAttr rsAttr n) ignoreFields order)
    with (mismatchReport dsAttr (findIndex dsAttr rsAttr n) ignoreFields order).
  by destruct (String.eqb _ "").
Qed.

Lemma check_passes_inv (dsAttr rsAttr : gmap string string) (ignoreFields : gset string)
    (order : list (string * string)) :
  checkDatabaseFieldsMatchForDataSourceStateAndResourceState dsAttr rsAttr ignoreFields order
  = Returns None →
  ∃ n, Atoi (get dsAttr "databases.#") = Some n
       ∧ findIndex dsAttr rsAttr n ≠ "-1"
       ∧ ∀ kv, kv ∈ order →
               mismatched dsAttr (findIndex dsAttr rsAttr n) ignoreFields kv = false.
Proof.
  rewrite check_result_char.
  destruct (Atoi (get dsAttr "databases.#")) as [n|]; [|done]. cbv zeta.
  destruct (String.eqb_spec (findIndex dsAttr rsAttr n) "-1") as [|Hf]; [done|].
  destruct (existsb _ order); [done|].
  destruct (String.eqb_spec (mismatchReport dsAttr (findIndex dsAttr rsAttr n)
                               ignoreFields order) "") as [E|]; [|done].
  intros _. exists n. split_and!; try done. by apply mismatchReport_empty.
Qed.

Lemma findIndex_not_found (dsAttr rsAttr : gmap string string) (n : Z) :
  findIndex dsAttr rsAttr n = "-1" ↔
  ∀ i, (0 ≤ i < n)%Z → entryName dsAttr i ≠ get rsAttr "name".
Proof.
  split.
  - intros E i Hi Hm.
    assert (findIndex dsAttr rsAttr n ≠ "-1") as Hne; [|done].
    apply findIndex_found. unfold entryName in Hm.
    destruct (findLoop_spec dsAttr rsAttr (seqZ 0 n) "-1")
      as [[_ Hno]|(l1 & j & l2 & El & Hj & _ & Hs)].
    + exfalso. apply (Hno i); [|done]. apply elem_of_seqZ. lia.
    + exfalso. unfold findIndex in E. rewrite Hs in E.
      assert (j ∈ seqZ 0 n) as Hin by (rewrite El; apply elem_of_app; right; by left).
      apply elem_of_seqZ in Hin. by apply (Itoa_nonneg j); [lia|].
  - intros H. destruct (decide (findIndex dsAttr rsAttr n = "-1")) as [|Hne]; [done|].
    apply findIndex_found in Hne as (i & Hi & _ & Hm). by apply H in Hm.
Qed.

Lemma absentLoop_spec (dsAttr rsAttr : gmap string string) (l : list Z) :
  (absentLoop dsAttr rsAttr l = None
   ∧ ∀ i, i ∈ l → entryName dsAttr i ≠ get rsAttr "name")
  ∨ (absentLoop dsAttr rsAttr l = Some presentMessage
     ∧ ∃ i, i ∈ l ∧ entryName dsAttr i = get rsAttr "name").
Proof.
  induction l as [|x l IH]; simpl.
  - left. split; [done|]. intros i Hi. by apply elem_of_nil in Hi.
  - fold (entryName dsAttr x).
    destruct (String.eqb_spec (entryName dsAttr x) (get rsAttr "name")) as [Hx|Hx].
    + right. split; [done|]. exists x. split; [by left|done].
    + destruct IH as [[E Hno]|[E (i & Hi & Hm)]].
      * left. split; [done|]. intros i Hi.
        apply elem_of_cons in Hi as [-> | Hi]; auto.
      * right. split; [done|]. exists i. split; [by right|done].
Qed.

(** X12. The absence check decides "no entry below the count carries the
    resource's name": it returns nil exactly then, the "present" error
    exactly when some entry does, and the "count" error when
    ["databases.#"] is missing or is not an integer.  A count of zero or
    below makes it pass. *)
Theorem absence_check_decides (dsAttr rsAttr : gmap string string) :
  (Atoi (get dsAttr "databases.#") = None →
   checkDatabaseResourceAbsentInDataSourceAfterFilterApllied dsAttr rsAttr
   = Some countMessage)
  ∧ (dsAttr !! "databases.#" = None →
     checkDatabaseResourceAbsentInDataSourceAfterFilterApllied dsAttr rsAttr
     = Some countMessage)
  ∧ (∀ n, Atoi (get dsAttr "databases.#") = Some n →
       (checkDatabaseResourceAbsentInDataSourceAfterFilterApllied dsAttr rsAttr = None
        ↔ ∀ i, (0 ≤ i < n)%Z → entryName dsAttr i ≠ get rsAttr "name")
       ∧ (checkDatabaseResourceAbsentInDataSourceAfterFilterApllied dsAttr rsAttr
          = Some presentMessage
          ↔ ∃ i, (0 ≤ i < n)%Z ∧ entryName dsAttr i = get rsAttr "name")
       ∧ ((n ≤ 0)%Z →
          checkDatabaseResourceAbsentInDataSourceAfterFilterApllied dsAttr rsAttr = None)).
Proof.
  unfold checkDatabaseResourceAbsentInDataSourceAfterFilterApllied.
  split_and!.
  - by intros ->.
  - intros E. unfold get. by rewrite E.
  - intros n ->.
    assert (∀ i, i ∈ seqZ 0 n ↔ (0 ≤ i < n)%Z) as Hseq
      by (intros i; rewrite elem_of_seqZ; lia).
    destruct (absentLoop_spec dsAttr rsAttr (seqZ 0 n)) as [[E Hno]|[E (i & Hi & Hm)]];
      rewrite E; split_and!.
    + split; [|done]. intros _ i Hi. by apply Hno, Hseq.
    + split; [done|]. intros (i & Hi & Hm). by apply Hseq, Hno in Hi.
    + done.
    + split; [done|]. intros H. apply Hseq in Hi. by apply H in Hm.
    + split; [|done]. intros _. exists i. by rewrite <- Hseq.
    + intros Hn. apply Hseq in Hi. lia.
Qed.

(** X13. The absence check and the field check exclude each other on the
    same resource: if the resource is absent the field check returns its
    "not found" error, and if the field check passes the absence check
    returns "present". *)
Theorem absent_and_matching_exclude_each_other
    (dsAttr rsAttr : gmap string string) (ignoreFields : gset string)
    (order : list (string * string)) :
  (checkDatabaseResourceAbsentInDataSourceAfterFilterApllied dsAttr rsAttr = None →
   checkDatabaseFieldsMatchForDataSourceStateAndResourceState
     dsAttr rsAttr ignoreFields order = Returns (Some notFoundMessage))
  ∧ (checkDatabaseFieldsMatchForDataSourceStateAndResourceState
       dsAttr rsAttr ignoreFields order = Returns None →
     checkDatabaseResourceAbsentInDataSourceAfterFilterApllied dsAttr rsAttr
     = Some presentMessage).
Proof.
  assert (∀ n i, i ∈ seqZ 0 n ↔ (0 ≤ i < n)%Z) as Hseq
    by (intros n i; rewrite elem_of_seqZ; lia).
  split.
  - unfold checkDatabaseResourceAbsentInDataSourceAfterFilterApllied.
    rewrite check_result_char.
    destruct (Atoi (get dsAttr "databases.#")) as [n|]; [|done]. cbv zeta.
    intros E.
    destruct (absentLoop_spec dsAttr rsAttr (seqZ 0 n)) as [[_ Hno]|[E' _]];
      [|congruence].
    assert (findIndex dsAttr rsAttr n = "-1") as ->; [|done].
    apply findIndex_not_found. intros i Hi. by apply Hno, Hseq.
  - intros H. apply check_passes_inv in H as (n & Hn & Hf & _).
    unfold checkDatabaseResourceAbsentInDataSourceAfterFilterApllied. rewrite Hn.
    destruct (absentLoop_spec dsAttr rsAttr (seqZ 0 n)) as [[_ Hno]|[E' _]]; [|done].
    exfalso. apply Hf, findIndex_not_found. intros i Hi. by apply Hno, Hseq.
Qed.

Lemma seqZ_split (m n : Z) (l1 l2 : list Z) (x : Z) :
  seqZ m n = (l1 ++ x :: l2)%list →
  (∀ y, y ∈ l1 → (y < x)%Z) ∧ (∀ y, y ∈ l2 → (x < y)%Z).
Proof.
  intros E.
  assert (∀ k y, (l1 ++ x :: l2)%list !! k = Some y → y = (m + Z.of_nat k)%Z) as Hlk.
  { intros k y Hk. rewrite <- E in Hk. by apply lookup_seqZ in Hk as [-> _]. }
  assert (x = (m + Z.of_nat (length l1))%Z) as Hx.
  { apply Hlk. by rewrite list_lookup_middle. }
  split; intros y Hy; apply list_elem_of_lookup in Hy as [k Hk].
  - assert (k < length l1)%nat by (by eapply lookup_lt_Some).
    rewrite (Hlk k y); [lia|]. by rewrite lookup_app_l.
  - rewrite (Hlk (length l1 + S k)%nat y); [lia|].
    rewrite lookup_app_r by lia.
    replace (length l1 + S k - length l1)%nat with (S k) by lia. done.
Qed.

Lemma findIndex_last (dsAttr rsAttr : gmap string string) (n i : Z) :
  (0 ≤ i < n)%Z →
  entryName dsAttr i = get rsAttr "name" →
  (∀ j, (i < j < n)%Z → entryName dsAttr j ≠ get rsAttr "name") →
  findIndex dsAttr rsAttr n = Itoa i.
Proof.
  intros Hi Hm Hlast. unfold findIndex.
  assert (i ∈ seqZ 0 n) as Hin by (apply elem_of_seqZ; lia).
  destruct (findLoop_spec dsAttr rsAttr (seqZ 0 n) "-1")
    as [[_ Hno]|(l1 & j & l2 & El & Hj & Hl2 & Hs)].
  - by apply Hno in Hin.
  - rewrite Hs. f_equal.
    assert (j ∈ seqZ 0 n) as Hjn by (rewrite El; apply elem_of_app; right; by left).
    apply elem_of_seqZ in Hjn.
    destruct (seqZ_split _ _ _ _ _ El) as [Hlt Hgt].
    rewrite El in Hin. apply elem_of_app in Hin as [Hin|Hin].
    + apply Hlt in Hin. exfalso. apply (Hlast j); [lia|done].
    + apply elem_of_cons in Hin as [-> | Hin]; [done|]. by apply Hl2 in Hin.
Qed.

(** X14. With several entries of the same name the last one is the entry
    compared: if position [i] carries the resource's name and no later
    position below the count does, the index the field check uses is [i]. *)
Theorem findIndex_is_last_match (dsAttr rsAttr : gmap string string) (n i : Z) :
  (0 ≤ i < n)%Z →
  entryName dsAttr i = get rsAttr "name" →
  (∀ j, (i < j < n)%Z → entryName dsAttr j ≠ get rsAttr "name") →
  findIndex dsAttr rsAttr n = Itoa i ∧ findIndex dsAttr rsAttr n ≠ "-1".
Proof.
  intros Hi Hm Hlast. rewrite (findIndex_last _ _ _ _ Hi Hm Hlast).
  split; [done|]. apply Itoa_nonneg. lia.
Qed.

Lemma get_insert_ne (m : gmap string string) (k k' x : string) :
  k' ≠ k → get (<[k' := x]> m) k = get m k.
Proof. intros H. unfold get. by rewrite lookup_insert_ne. Qed.

Lemma fold_left_ext_elem {A B} (f g : A → B → A) (l : list B) (a : A) :
  (∀ a x, x ∈ l → f a x = g a x) → fold_left f l a = fold_left g l a.
Proof.
  revert a. induction l as [|x l IH]; simpl; intros a H; [done|].
  rewrite (H a x) by left. apply IH. intros a' y Hy. apply H. by right.
Qed.

Lemma fieldsLoop_insert_ne (dsAttr : gmap string string) (index : string)
    (ignoreFields : gset string) (kvs : list (string * string)) (errMsg k' x : string) :
  (∀ kv, kv ∈ kvs → k' ≠ entryKey index (fst kv)) →
  fieldsLoop (<[k' := x]> dsAttr) index ignoreFields kvs errMsg
  = fieldsLoop dsAttr index ignoreFields kvs errMsg.
Proof.
  revert errMsg. induction kvs as [|[k v] kvs IH]; simpl; intros errMsg H; [done|].
  assert (∀ m, fieldsLoop (<[k' := x]> dsAttr) index ignoreFields kvs m
               = fieldsLoop dsAttr index ignoreFields kvs m) as IH'.
  { intros m. apply IH. intros kv Hkv. apply H. by right. }
  rewrite (get_insert_ne dsAttr (entryKey index k)) by (apply (H (k, v)); by left).
  rewrite !IH'. done.
Qed.

(** X15. The field check looks at the data source only through the count,
    the names of the entries below the count, and the fields of the found
    entry that the resource has: setting any other key of the data source
    leaves its result unchanged. *)
Theorem field_check_ignores_other_keys
    (dsAttr rsAttr : gmap string string) (ignoreFields : gset string)
    (order : list (string * string)) (n : Z) (k' x : string) :
  order ≡ₚ map_to_list rsAttr →
  Atoi (get dsAttr "databases.#") = Some n →
  k' ≠ "databases.#" →
  (∀ i, (0 ≤ i < n)%Z → k' ≠ "databases." +:+ Itoa i +:+ ".name") →
  (∀ k, is_Some (rsAttr !! k) → k' ≠ entryKey (findIndex dsAttr rsAttr n) k) →
  checkDatabaseFieldsMatchForDataSourceStateAndResourceState
    (<[k' := x]> dsAttr) rsAttr ignoreFields order
  = checkDatabaseFieldsMatchForDataSourceStateAndResourceState
      dsAttr rsAttr ignoreFields order.
Proof.
  intros Hperm Hn Hcount Hnames Hfields.
  unfold checkDatabaseFieldsMatchForDataSourceStateAndResourceState.
  rewrite (get_insert_ne dsAttr "databases.#") by done. rewrite Hn.
  assert (findIndex (<[k' := x]> dsAttr) rsAttr n = findIndex dsAttr rsAttr n) as ->.
  { unfold findIndex. apply fold_left_ext_elem. intros a i Hi.
    apply elem_of_seqZ in Hi. rewrite get_insert_ne; [done|]. apply Hnames. lia. }
  cbv zeta. rewrite fieldsLoop_insert_ne; [done|].
  intros [k v] Hkv. apply Hfields. simpl.
  rewrite Hperm in Hkv. apply elem_of_map_to_list in Hkv. by exists v.
Qed.

Lemma existsb_Permutation {A} (f : A → bool) (l l' : list A) :
  l ≡ₚ l' → existsb f l = existsb f l'.
Proof.
  induction 1 as [|x l l' _ IH|x y l|l l' l'' _ IH1 _ IH2]; simpl.
  - done.
  - by rewrite IH.
  - by rewrite !orb_assoc, (orb_comm (f y)).
  - by rewrite IH1.
Qed.

Lemma List_filter_Permutation {A} (f : A → bool) (l l' : list A) :
  l ≡ₚ l' → List.filter f l ≡ₚ List.filter f l'.
Proof.
  induction 1 as [|x l l' _ IH|x y l|l l' l'' _ IH1 _ IH2]; simpl.
  - done.
  - destruct (f x); by rewrite IH.
  - destruct (f x), (f y); try done. apply perm_swap.
  - by rewrite IH1.
Qed.

Lemma mismatchReport_joinLines (dsAttr : gmap string string) (index : string)
    (ignoreFields : gset string) (kvs : list (string * string)) :
  mismatchReport dsAttr index ignoreFields kvs
  = joinLines (mismatchLines dsAttr index ignoreFields kvs).
Proof.
  unfold mismatchReport, mismatchLines, joinLines.
  induction (List.filter (mismatched dsAttr index ignoreFields) kvs) as [|kv l IH];
    simpl; [done|]. by rewrite IH.
Qed.

(** X16. The outcome of the field check does not depend on the order in
    which the resource map is iterated: it passes for one order exactly when
    it passes for another, panics for one exactly when it panics for
    another, and two error messages are made of the same lines, possibly in
    another order. *)
Theorem field_check_outcome_independent_of_order
    (dsAttr rsAttr : gmap string string) (ignoreFields : gset string)
    (order order' : list (string * string)) :
  order ≡ₚ order' →
  let r := checkDatabaseFieldsMatchForDataSourceStateAndResourceState
             dsAttr rsAttr ignoreFields order in
  let r' := checkDatabaseFieldsMatchForDataSourceStateAndResourceState
              dsAttr rsAttr ignoreFields order' in
  (r = Returns None ↔ r' = Returns None)
  ∧ (r = Panics ↔ r' = Panics)
  ∧ (∀ msg, r = Returns (Some msg) →
       ∃ msg' lines lines',
         r' = Returns (Some msg') ∧ lines ≡ₚ lines'
         ∧ msg = joinLines lines ∧ msg' = joinLines lines').
Proof.
  intros Hperm r r'. unfold r, r'. rewrite !check_result_char.
  destruct (Atoi (get dsAttr "databases.#")) as [n|].
  2:{ split_and!; [done|done|]. intros msg [= <-].
      exists countMessage, [countMessage], [countMessage]. by split_and!. }
  cbv zeta. set (index := findIndex dsAttr rsAttr n).
  destruct (String.eqb index "-1").
  { split_and!; [done|done|]. intros msg [= <-].
    exists notFoundMessage, [notFoundMessage], [notFoundMessage]. by split_and!. }
  rewrite (existsb_Permutation _ _ _ Hperm).
  destruct (existsb _ order'); [by split_and!|].
  assert (mismatchReport dsAttr index ignoreFields order = ""
          ↔ mismatchReport dsAttr index ignoreFields order' = "") as Hempty.
  { rewrite !mismatchReport_empty. by setoid_rewrite Hperm. }
  destruct (String.eqb_spec (mismatchReport dsAttr index ignoreFields order) "") as [E|E],
    (String.eqb_spec (mismatchReport dsAttr index ignoreFields order') "") as [E'|E'].
  - split_and!; [done|done|]. intros msg H. discriminate H.
  - by apply Hempty in E.
  - by apply Hempty in E'.
  - split_and!; [done|done|]. intros msg [= <-].
    exists (mismatchReport dsAttr index ignoreFields order'),
      (mismatchLines dsAttr index ignoreFields order),
      (mismatchLines dsAttr index ignoreFields order').
    split_and!; [done| |apply mismatchReport_joinLines|apply mismatchReport_joinLines].
    unfold mismatchLines. apply Permutation_map. by apply List_filter_Permutation.
Qed.

Lemma check_passes_listed (dsAttr rsAttr : gmap string string) (ignoreFields : gset string)
    (order : list (string * string)) :
  order ≡ₚ map_to_list rsAttr →
  checkDatabaseFieldsMatchForDataSourceStateAndResourceState dsAttr rsAttr ignoreFields order
  = Returns None →
  ∃ n i, Atoi (get dsAttr "databases.#") = Some n
         ∧ (0 ≤ i < n)%Z
         ∧ entryName dsAttr i = get rsAttr "name"
         ∧ ∀ k v, rsAttr !! k = Some v → k ∉ ignoreFields → k ≠ "%" →
                  fieldAgrees k (get dsAttr (entryKey (Itoa i) k)) v.
Proof.
  intros Hperm H. apply check_passes_inv in H as (n & Hn & Hf & Hall).
  apply findIndex_found in Hf as (i & Hi & Ei & Hm).
  exists n, i. split_and!; try done; try lia.
  intros k v Hkv. rewrite <- Ei. apply mismatched_spec, Hall.
  rewrite Hperm. by apply elem_of_map_to_list.
Qed.

(** X17. What the check of the basic test establishes: if it returns nil,
    the data source and both resources are in the state, each resource has
    an entry of its name below the count, every attribute of each resource
    that is neither ignored nor [%] agrees with that entry, and two
    resources of different names sit at different positions, so that the
    count is at least two. *)
Theorem basic_check_sound
    (dataSourceName resourceName resourceName2 : string) (ignoreFields : gset string)
    (order order2 : list (string * string)) (s : gmap string (gmap string string)) :
  (∀ rsAttr, s !! resourceName = Some rsAttr → order ≡ₚ map_to_list rsAttr) →
  (∀ rsAttr2, s !! resourceName2 = Some rsAttr2 → order2 ≡ₚ map_to_list rsAttr2) →
  checkDatabasesListDataSourceStateMatchesResourceStateWithIgnores
    dataSourceName resourceName resourceName2 ignoreFields order order2 s
  = Returns None →
  ∃ dsAttr rsAttr rsAttr2 n i i2,
    s !! dataSourceName = Some dsAttr
    ∧ s !! resourceName = Some rsAttr
    ∧ s !! resourceName2 = Some rsAttr2
    ∧ Atoi (get dsAttr "databases.#") = Some n
    ∧ (0 ≤ i < n)%Z ∧ entryName dsAttr i = get rsAttr "name"
    ∧ (0 ≤ i2 < n)%Z ∧ entryName dsAttr i2 = get rsAttr2 "name"
    ∧ (∀ k v, rsAttr !! k = Some v → k ∉ ignoreFields → k ≠ "%" →
              fieldAgrees k (get dsAttr (entryKey (Itoa i) k)) v)
    ∧ (∀ k v, rsAttr2 !! k = Some v → k ∉ ignoreFields → k ≠ "%" →
              fieldAgrees k (get dsAttr (entryKey (Itoa i2) k)) v)
    ∧ (get rsAttr "name" ≠ get rsAttr2 "name" → i ≠ i2 ∧ (2 ≤ n)%Z).
Proof.
  intros Ho Ho2.
  unfold checkDatabasesListDataSourceStateMatchesResourceStateWithIgnores.
  destruct (s !! dataSourceName) as [dsAttr|]; [|done].
  destruct (s !! resourceName) as [rsAttr|]; [|done].
  destruct (s !! resourceName2) as [rsAttr2|]; [|done].
  destruct (checkDatabaseFieldsMatchForDataSourceStateAndResourceState
              dsAttr rsAttr ignoreFields order) as [[e|]|] eqn:E1; [done| |done].
  intros E2.
  apply check_passes_listed in E1 as (n & i & Hn & Hi & Hm & Hag); [|by apply Ho].
  apply check_passes_listed in E2 as (n' & i2 & Hn' & Hi2 & Hm2 & Hag2); [|by apply Ho2].
  assert (n' = n) as -> by congruence.
  exists dsAttr, rsAttr, rsAttr2, n, i, i2. split_and!; try done; try lia.
  intros Hne. assert (i ≠ i2) by (intros ->; congruence). split; [done|lia].
Qed.

(** X18. What the check of the filter tests establishes: if it returns
    nil, no entry below the count carries the name of the first resource,
    some entry carries the name of the second and agrees with it on every
    attribute that is neither ignored nor [%]; hence the two names differ,
    and the check can never pass for a resource against itself. *)
Theorem applied_filter_check_sound
    (dataSourceName resourceName resourceName2 : string) (ignoreFields : gset string)
    (order2 : list (string * string)) (s : gmap string (gmap string string)) :
  (∀ rsAttr2, s !! resourceName2 = Some rsAttr2 → order2 ≡ₚ map_to_list rsAttr2) →
  checkDatabaseListDataSourceStateMatchesResourceStateWithIgnoresForAppliedFilter
    dataSourceName resourceName resourceName2 ignoreFields order2 s
  = Returns None →
  ∃ dsAttr rsAttr rsAttr2 n i2,
    s !! dataSourceName = Some dsAttr
    ∧ s !! resourceName = Some rsAttr
    ∧ s !! resourceName2 = Some rsAttr2
    ∧ Atoi (get dsAttr "databases.#") = Some n
    ∧ (∀ i, (0 ≤ i < n)%Z → entryName dsAttr i ≠ get rsAttr "name")
    ∧ (0 ≤ i2 < n)%Z ∧ entryName dsAttr i2 = get rsAttr2 "name"
    ∧ (∀ k v, rsAttr2 !! k = Some v → k ∉ ignoreFields → k ≠ "%" →
              fieldAgrees k (get dsAttr (entryKey (Itoa i2) k)) v)
    ∧ get rsAttr "name" ≠ get rsAttr2 "name"
    ∧ resourceName ≠ resourceName2.
Proof.
  intros Ho2.
  unfold checkDatabaseListDataSourceStateMatchesResourceStateWithIgnoresForAppliedFilter.
  destruct (s !! dataSourceName) as [dsAttr|]; [|done].
  destruct (s !! resourceName) as [rsAttr|] eqn:Er; [|done].
  destruct (s !! resourceName2) as [rsAttr2|] eqn:Er2; [|done].
  unfold checkDatabaseResourceAbsentInDataSourceAfterFilterApllied.
  destruct (Atoi (get dsAttr "databases.#")) as [n|] eqn:Hn; [|done].
  destruct (absentLoop_spec dsAttr rsAttr (seqZ 0 n)) as [[E Hno]|[E _]];
    rewrite E; [|done].
  intros E2.
  apply check_passes_listed in E2 as (n' & i2 & Hn' & Hi2 & Hm2 & Hag2); [|by apply Ho2].
  assert (n' = n) as -> by congruence.
  assert (get rsAttr "name" ≠ get rsAttr2 "name") as Hne.
  { intros Heq. apply (Hno i2); [apply elem_of_seqZ; lia|congruence]. }
  exists dsAttr, rsAttr, rsAttr2, n, i2. split_and!; try done; try lia.
  - intros i Hi. apply Hno, elem_of_seqZ. lia.
  - intros ->. congruence.
Qed.

(** * The App Engine default service account *)

Module AppEngineFacts.
Import AppEngine.


End AppEngineFacts.

(** * The checks on what the read stores *)

(** ** [strconv.Atoi] after [strconv.Itoa] *)

Lemma digit_of_decimal_char (n : nat) :
  (n < 10)%nat → digit (pretty_N_char (N.of_nat n)) = Some (Z.of_nat n).
Proof. intros H. do 10 (destruct n as [|n]; [reflexivity|]). lia. Qed.

Lemma digit_pretty_N_char (x : N) :
  (x < 10)%N → digit (pretty_N_char x) = Some (Z.of_N x).
Proof.
  intros H. rewrite <- (N2Nat.id x), nat_N_Z. apply digit_of_decimal_char. lia.
Qed.

Lemma digitsValue_pretty_N_go (x : N) :
  ∀ s acc, ∃ k : Z, (0 ≤ k)%Z ∧
    digitsValue (pretty_N_go x s) acc = digitsValue s (acc * 10 ^ k + Z.of_N x)%Z.
Proof.
  induction (N.lt_wf_0 x) as [x _ IH]. intros s acc.
  destruct (decide (x = 0)%N) as [-> | Hx].
  - exists 0%Z. split; [done|]. rewrite pretty_N_go_0. f_equal. lia.
  - rewrite pretty_N_go_step by lia.
    destruct (IH (x `div` 10)%N ltac:(apply N.div_lt; lia)
                (String (pretty_N_char (x `mod` 10)) s) acc) as (k & Hk & ->).
    exists (k + 1)%Z. split; [lia|]. simpl.
    rewrite digit_pretty_N_char by (apply N.mod_lt; lia). simpl. f_equal.
    rewrite Z.pow_add_r by lia.
    rewrite (N.div_mod x 10) at 3 by lia. lia.
Qed.

Lemma pretty_N_go_head (x : N) :
  (0 < x)%N → ∀ s, ∃ c rest, pretty_N_go x s = String c rest ∧ is_Some (digit c).
Proof.
  induction (N.lt_wf_0 x) as [x _ IH]. intros Hx s.
  rewrite pretty_N_go_step by done.
  destruct (decide (x `div` 10 = 0)%N) as [E|E].
  - rewrite E, pretty_N_go_0. eexists _, _. split; [done|].
    rewrite digit_pretty_N_char by (apply N.mod_lt; lia). done.
  - apply IH; [by apply N.div_lt|by apply N.neq_0_lt_0].
Qed.

Lemma int_range_true (n : Z) :
  (- 2 ^ 63 ≤ n ≤ 2 ^ 63 - 1)%Z →
  (- 2 ^ 63 <=? n)%Z && (n <=? 2 ^ 63 - 1)%Z = true.
Proof. intros H. apply andb_true_iff. split; apply Z.leb_le; lia. Qed.

Lemma Atoi_digits (c : ascii) (rest : string) (v : Z) :
  is_Some (digit c) → digitsValue (String c rest) 0 = Some v →
  (- 2 ^ 63 ≤ v ≤ 2 ^ 63 - 1)%Z →
  Atoi (String c rest) = Some v.
Proof.
  intros [d Hd] Hv Hr. unfold Atoi.
  assert (Ascii.eqb c "-" = false) as -> by (apply Ascii.eqb_neq; by intros ->).
  assert (Ascii.eqb c "+" = false) as -> by (apply Ascii.eqb_neq; by intros ->).
  rewrite Hv. cbv [mbind option_bind]. by rewrite (int_range_true _ Hr).
Qed.

Lemma Atoi_minus_digits (c : ascii) (rest : string) (v : Z) :
  digitsValue (String c rest) 0 = Some v →
  (- 2 ^ 63 ≤ - v ≤ 2 ^ 63 - 1)%Z →
  Atoi (String "-" (String c rest)) = Some (- v)%Z.
Proof.
  intros Hv Hr. unfold Atoi. rewrite Ascii.eqb_refl.
  rewrite Hv. cbv [mbind option_bind]. by rewrite (int_range_true _ Hr).
Qed.

Lemma digitsValue_pretty_pos (p : positive) :
  ∃ c rest, pretty_N_go (N.pos p) "" = String c rest
            ∧ is_Some (digit c)
            ∧ digitsValue (String c rest) 0 = Some (Z.pos p).
Proof.
  destruct (pretty_N_go_head (N.pos p) ltac:(lia) "") as (c & rest & E & Hd).
  destruct (digitsValue_pretty_N_go (N.pos p) "" 0) as (k & Hk & Hv).
  exists c, rest. split_and!; try done. rewrite <- E, Hv. done.
Qed.

(** [strconv.Atoi] reads back what [strconv.Itoa] prints. *)
Lemma Atoi_Itoa (n : Z) : (- 2 ^ 63 ≤ n ≤ 2 ^ 63 - 1)%Z → Atoi (Itoa n) = Some n.
Proof.
  intros Hn. unfold Itoa, pretty, pretty_Z.
  destruct n as [|p|p]; [done| |].
  - destruct (digitsValue_pretty_pos p) as (c & rest & E & Hd & Hv).
    unfold pretty, pretty_positive, pretty, pretty_N.
    destruct (decide (N.pos p = 0)%N) as [|_]; [done|].
    rewrite E. by apply Atoi_digits.
  - destruct (digitsValue_pretty_pos p) as (c & rest & E & Hd & Hv).
    unfold pretty, pretty_positive, pretty, pretty_N.
    destruct (decide (N.pos p = 0)%N) as [|_]; [done|].
    rewrite E. change ("-" +:+ String c rest) with (String "-" (String c rest)).
    by apply (Atoi_minus_digits c rest (Z.pos p)).
Qed.

(** ** Entries listed in the data source *)

Section Listed.

Variables (dsAttr : gmap string string) (l : list Database).
Hypothesis Hlists : listsEntries dsAttr (flattenDatabase <$> l).
Hypothesis Hlen : (Z.of_nat (length l) ≤ 2 ^ 63 - 1)%Z.

Lemma listed_count : Atoi (get dsAttr "databases.#") = Some (Z.of_nat (length l)).
Proof.
  destruct Hlists as [Hc _]. unfold get. rewrite Hc. simpl.
  rewrite length_fmap. apply Atoi_Itoa. lia.
Qed.

Lemma listed_field (i : nat) (d : Database) (k v : string) :
  l !! i = Some d → flattenDatabase d !! k = Some v →
  get dsAttr (entryKey (Itoa (Z.of_nat i)) k) = v.
Proof.
  intros Hi Hk. destruct Hlists as [_ Hf]. unfold get.
  rewrite (Hf i (flattenDatabase d) k v); [done| |done].
  by rewrite list_lookup_fmap, Hi.
Qed.

Lemma listed_name (i : nat) (d : Database) :
  l !! i = Some d → entryName dsAttr (Z.of_nat i) = Name d.
Proof.
  intros Hi. apply (listed_field i d "name"); [done|].
  unfold flattenDatabase. by simplify_map_eq.
Qed.

Lemma listed_position (j : Z) :
  (0 ≤ j < Z.of_nat (length l))%Z →
  ∃ (i : nat) (d : Database), j = Z.of_nat i ∧ l !! i = Some d.
Proof.
  intros Hj. destruct (lookup_lt_is_Some_2 l (Z.to_nat j)) as [d Hd]; [lia|].
  exists (Z.to_nat j), d. split; [lia|done].
Qed.

Lemma check_passes_for_listed (rsAttr : gmap string string) (ignoreFields : gset string)
    (order : list (string * string)) (i : nat) (d : Database) :
  l !! i = Some d →
  (∀ j d', l !! j = Some d' → Name d' = Name d → j = i) →
  order ≡ₚ map_to_list rsAttr →
  describes rsAttr ignoreFields d →
  checkDatabaseFieldsMatchForDataSourceStateAndResourceState
    dsAttr rsAttr ignoreFields order = Returns None.
Proof.
  intros Hi Huniq Hperm [Hname Hfields].
  assert (get rsAttr "name" = Name d) as Hn by (unfold get; by rewrite Hname).
  assert (findIndex dsAttr rsAttr (Z.of_nat (length l)) = Itoa (Z.of_nat i)) as Hidx.
  { apply findIndex_last.
    - apply lookup_lt_Some in Hi. lia.
    - by rewrite (listed_name i d), Hn.
    - intros j Hj. destruct (listed_position j) as (j' & d' & -> & Hj'); [lia|].
      rewrite (listed_name j' d'), Hn by done. intros E.
      apply (Huniq j' d' Hj') in E. lia. }
  assert (∀ kv, kv ∈ order →
            mismatched dsAttr (Itoa (Z.of_nat i)) ignoreFields kv = false) as Hall.
  { intros [k v] Hkv. apply mismatched_spec. intros Hk Hp. left.
    apply (listed_field i d); [done|]. apply Hfields; [|done|done].
    rewrite Hperm in Hkv. by apply elem_of_map_to_list in Hkv. }
  rewrite check_result_char, listed_count. cbv zeta. rewrite Hidx.
  destruct (String.eqb_spec (Itoa (Z.of_nat i)) "-1") as [E|_].
  { by apply Itoa_nonneg in E; [|lia]. }
  assert (existsb (fun kv => mismatched dsAttr (Itoa (Z.of_nat i)) ignoreFields kv
                             && String.eqb (fst kv) "") order = false) as ->.
  { apply not_true_is_false. intros H. apply existsb_exists in H as (kv & Hin & Hkv).
    apply list_elem_of_In in Hin. by rewrite (Hall kv Hin) in Hkv. }
  apply mismatchReport_empty in Hall. by rewrite Hall.
Qed.

Lemma absent_for_unlisted (rsAttr : gmap string string) :
  (∀ d, d ∈ l → get rsAttr "name" ≠ Name d) →
  checkDatabaseResourceAbsentInDataSourceAfterFilterApllied dsAttr rsAttr = None.
Proof.
  intros Hno. unfold checkDatabaseResourceAbsentInDataSourceAfterFilterApllied.
  rewrite listed_count.
  destruct (absentLoop_spec dsAttr rsAttr (seqZ 0 (Z.of_nat (length l))))
    as [[E _]|[_ (j & Hj & Hm)]]; [done|].
  apply elem_of_seqZ in Hj.
  destruct (listed_position j) as (i & d & -> & Hi); [lia|].
  rewrite (listed_name i d Hi) in Hm. exfalso.
  apply (Hno d); [|done]. by eapply list_elem_of_lookup_2.
Qed.

End Listed.

(** X20. The field check accepts a listed record: if the data source lists
    the projections of [l], no more than the largest [int], the record at
    position [i] is the only one of its name, and the resource carries that
    name and its checked attributes are fields of the projection with the
    same values, the check returns nil, whatever the iteration order. *)
Theorem field_check_accepts_listed_record
    (dsAttr rsAttr : gmap string string) (l : list Database)
    (ignoreFields : gset string) (order : list (string * string))
    (i : nat) (d : Database) :
  listsEntries dsAttr (flattenDatabase <$> l) →
  (Z.of_nat (length l) ≤ 2 ^ 63 - 1)%Z →
  l !! i = Some d →
  (∀ j d', l !! j = Some d' → Name d' = Name d → j = i) →
  order ≡ₚ map_to_list rsAttr →
  describes rsAttr ignoreFields d →
  checkDatabaseFieldsMatchForDataSourceStateAndResourceState
    dsAttr rsAttr ignoreFields order = Returns None.
Proof. intros. by eapply check_passes_for_listed. Qed.

(** X21. The absence check accepts an unlisted name: if the data source
    lists the projections of [l] and no record of [l] has the resource's
    name, the check returns nil. *)
Theorem absence_check_accepts_unlisted_name
    (dsAttr rsAttr : gmap string string) (l : list Database) :
  listsEntries dsAttr (flattenDatabase <$> l) →
  (Z.of_nat (length l) ≤ 2 ^ 63 - 1)%Z →
  (∀ d, d ∈ l → get rsAttr "name" ≠ Name d) →
  checkDatabaseResourceAbsentInDataSourceAfterFilterApllied dsAttr rsAttr = None.
Proof. intros. by eapply absent_for_unlisted. Qed.

Lemma NoDup_names_unique (l : list Database) (i j : nat) (d d' : Database) :
  NoDup (Name <$> l) → l !! i = Some d → l !! j = Some d' → Name d' = Name d → j = i.
Proof.
  intros Hnd Hi Hj E. apply (NoDup_lookup _ j i (Name d) Hnd).
  - by rewrite list_lookup_fmap, Hj, <- E.
  - by rewrite list_lookup_fmap, Hi.
Qed.

Lemma NoDup_names_filter (P : Database → bool) (l : list Database) :
  NoDup (Name <$> l) → NoDup (Name <$> List.filter P l).
Proof.
  intros H. apply (sublist_NoDup _ _ H). apply fmap_sublist, filter_sublist.
Qed.

(** X22. The check of the filter tests accepts what the filter returns: let
    the filter succeed on records of distinct names, and let the data source
    list the projection of its output.  Then for a fetched record that fails
    a clause and a fetched record that passes them all, each described by
    its resource, the composed check returns nil. *)
Theorem applied_filter_check_accepts_filter_output
    (MatchString : string → string → option bool)
    (items out : option (list Database)) (fs : list (option Filter))
    (dataSourceName resourceName resourceName2 : string) (ignoreFields : gset string)
    (order2 : list (string * string)) (s : gmap string (gmap string string))
    (dsAttr rsAttr rsAttr2 : gmap string string) (dropped kept : Database) :
  applyFilterOnDatabases MatchString items fs = (out, None) →
  NoDup (Name <$> elems items) →
  (Z.of_nat (length (elems items)) ≤ 2 ^ 63 - 1)%Z →
  s !! dataSourceName = Some dsAttr →
  s !! resourceName = Some rsAttr →
  s !! resourceName2 = Some rsAttr2 →
  listsEntries dsAttr (flattenDatabase <$> elems out) →
  dropped ∈ elems items → spec_survives MatchString fs dropped = false →
  rsAttr !! "name" = Some (Name dropped) →
  kept ∈ elems items → spec_survives MatchString fs kept = true →
  describes rsAttr2 ignoreFields kept →
  order2 ≡ₚ map_to_list rsAttr2 →
  checkDatabaseListDataSourceStateMatchesResourceStateWithIgnoresForAppliedFilter
    dataSourceName resourceName resourceName2 ignoreFields order2 s
  = Returns None.
Proof.
  intros Hok Hnd Hlen Hds Hrs Hrs2 Hlists Hdrop Hfail Hname Hkept Hpass Hdesc Hperm.
  apply applyFilterOnDatabases_ok in Hok. rewrite Hok in Hlists.
  set (l := List.filter (spec_survives MatchString fs) (elems items)) in *.
  assert (Z.of_nat (length l) ≤ 2 ^ 63 - 1)%Z as Hlen'.
  { assert (length l ≤ length (elems items))%nat
      by (apply sublist_length, filter_sublist). lia. }
  assert (NoDup (Name <$> l)) as Hnd' by (by apply NoDup_names_filter).
  unfold checkDatabaseListDataSourceStateMatchesResourceStateWithIgnoresForAppliedFilter.
  rewrite Hds, Hrs, Hrs2.
  rewrite (absent_for_unlisted dsAttr l Hlists Hlen').
  - assert (kept ∈ l) as Hin by (by apply elem_of_filter_bool).
    apply list_elem_of_lookup in Hin as [i Hi].
    apply (check_passes_for_listed dsAttr l Hlists Hlen' _ _ _ i kept); try done.
    intros j d' Hj E. by eapply NoDup_names_unique.
  - intros d Hd E. apply elem_of_filter_bool in Hd as [Hd Hs].
    assert (Name d = Name dropped) as En by (unfold get in E; rewrite Hname in E; done).
    apply list_elem_of_lookup in Hd as [i Hi].
    apply list_elem_of_lookup in Hdrop as [j Hj].
    assert (j = i) by (eapply (NoDup_names_unique (elems items)); eauto).
    subst j. congruence.
Qed.

(** X23. The check of the basic test accepts what an unfiltered read lists:
    if the data source lists the projections of records of distinct names
    and two of them are each described by a resource, the composed check
    returns nil. *)
Theorem basic_check_accepts_listed_records
    (dataSourceName resourceName resourceName2 : string) (ignoreFields : gset string)
    (order order2 : list (string * string)) (s : gmap string (gmap string string))
    (dsAttr rsAttr rsAttr2 : gmap string string) (l : list Database)
    (d d2 : Database) :
  listsEntries dsAttr (flattenDatabase <$> l) →
  (Z.of_nat (length l) ≤ 2 ^ 63 - 1)%Z →
  NoDup (Name <$> l) →
  s !! dataSourceName = Some dsAttr →
  s !! resourceName = Some rsAttr →
  s !! resourceName2 = Some rsAttr2 →
  d ∈ l → describes rsAttr ignoreFields d → order ≡ₚ map_to_list rsAttr →
  d2 ∈ l → describes rsAttr2 ignoreFields d2 → order2 ≡ₚ map_to_list rsAttr2 →
  checkDatabasesListDataSourceStateMatchesResourceStateWithIgnores
    dataSourceName resourceName resourceName2 ignoreFields order order2 s
  = Returns None.
Proof.
  intros Hlists Hlen Hnd Hds Hrs Hrs2 Hd Hdesc Hperm Hd2 Hdesc2 Hperm2.
  unfold checkDatabasesListDataSourceStateMatchesResourceStateWithIgnores.
  rewrite Hds, Hrs, Hrs2.
  apply list_elem_of_lookup in Hd as [i Hi].
  apply list_elem_of_lookup in Hd2 as [i2 Hi2].
  rewrite (check_passes_for_listed dsAttr l Hlists Hlen rsAttr ignoreFields order i d);
    try done.
  - apply (check_passes_for_listed dsAttr l Hlists Hlen _ _ _ i2 d2); try done.
    intros j d' Hj E. by eapply NoDup_names_unique.
  - intros j d' Hj E. by eapply NoDup_names_unique.
Qed.

(** * Instances of the further properties *)

Lemma databaseResource_describes (d : Database) :
  describes (databaseResource d) basicIgnores d.
Proof.
  unfold describes, databaseResource, basicIgnores. split.
  - unfold flattenDatabase. by simplify_map_eq.
  - intros k v H Hk _.
    apply lookup_insert_Some in H as [[<- _]|[_ H]]; [exfalso; apply Hk; set_solver|].
    apply lookup_insert_Some in H as [[<- _]|[_ H]]; [exfalso; apply Hk; set_solver|].
    exact H.
Qed.

Ltac listed_field H :=
  apply elem_of_map_to_list in H; vm_compute in H;
  repeat (apply elem_of_cons in H as [H|H]; [injection H as -> ->; reflexivity|]);
  by apply elem_of_nil in H.

Lemma basicDataSource_lists : listsEntries basicDataSource (flattenDatabase <$> [pgDb1; pgDb2]).
Proof.
  split; [reflexivity|]. intros [|[|i]] m k v Hi Hm; simpl in Hi; [| |done].
  - injection Hi as <-. listed_field Hm.
  - injection Hi as <-. listed_field Hm.
Qed.

Lemma nameFilterDataSource_lists :
  listsEntries nameFilterDataSource (flattenDatabase <$> [db1]).
Proof.
  split; [reflexivity|]. intros [|i] m k v Hi Hm; simpl in Hi; [|done].
  injection Hi as <-. listed_field Hm.
Qed.

Lemma regexMatch_never_raises_include_witness : true = true.
Proof.
  apply (regexMatch_never_raises_include Regexp.MatchString nameFilter "mysql-db1" true).
  reflexivity.
Defined.

Lemma filter_idempotent_witness :
  applyFilterOnDatabases Regexp.MatchString (Some [db1]) [Some nameFilter]
  = (Some [db1], None).
Proof.
  apply (filter_idempotent Regexp.MatchString (Some [db1; db2; db3]) [Some nameFilter]
           (Some [db1])).
  reflexivity.
Defined.

Lemma filter_composes_witness :
  applyFilterOnDatabases Regexp.MatchString (Some [db1; db2; db3])
    ([Some nameOnlyFilter] ++ [Some charsetFilter])%list
  = (Some [db1; db2], None).
Proof.
  apply (proj2 (filter_composes Regexp.MatchString (Some [db1; db2; db3])
                  [Some nameOnlyFilter] [Some charsetFilter] (Some [db1; db2]))).
  exists (Some [db1; db2; db3]). split; reflexivity.
Defined.

Lemma filter_clause_order_irrelevant_witness : Some [db1; db2] = Some [db1; db2].
Proof.
  apply (filter_clause_order_irrelevant Regexp.MatchString (Some [db1; db2; db3])
           [Some nameOnlyFilter; Some charsetFilter]
           [Some charsetFilter; Some nameOnlyFilter]).
  - apply perm_swap.
  - reflexivity.
  - reflexivity.
Defined.

Lemma filter_more_clauses_narrow_witness : sublist [db1; db2] [db1; db2; db3].
Proof.
  apply (filter_more_clauses_narrow Regexp.MatchString (Some [db1; db2; db3])
           [Some nameOnlyFilter] [Some charsetFilter]
           (Some [db1; db2; db3]) (Some [db1; db2])).
  - reflexivity.
  - reflexivity.
Defined.

Lemma filter_is_record_local_witness :
  applyFilterOnDatabases Regexp.MatchString (Some ([db1] ++ [db2; db3])%list)
    [Some nameFilter]
  = (Some ([db1] ++ [])%list, None).
Proof.
  apply (proj2 (filter_is_record_local Regexp.MatchString [db1] [db2; db3]
                  [Some nameFilter] (Some ([db1] ++ [])%list))).
  exists [db1], []. split_and!; reflexivity.
Defined.

Lemma read_stores_projection_of_survivors_witness :
  fst (readOf (Some [db1; db2; db3]) (request [Some nameFilter]))
  = mkResourceData "tf-test-instance" [Some nameFilter]
      (Some [flattenDatabase db1])
      "projects/my-project/instances/tf-test-instance/101".
Proof.
  apply (read_stores_projection_of_survivors Regexp.MatchString okUserAgent okProject
           (listReturns (Some [db1; db2; db3])) notFoundAsError plainQuote
           (request [Some nameFilter])
           (fst (readOf (Some [db1; db2; db3]) (request [Some nameFilter])))
           "Terraform/1.0" "my-project" (Some [db1; db2; db3])); reflexivity.
Defined.

Lemma read_fails_iff_a_record_fails_witness :
  snd (readOf (Some []) (request [Some openClassFilter])) = None.
Proof.
  apply (proj2 (read_fails_iff_a_record_fails Regexp.MatchString okUserAgent okProject
                  (listReturns (Some [])) notFoundAsError plainQuote
                  (request [Some openClassFilter]) (Some [])
                  (fetched_listReturns (Some []) [Some openClassFilter]))).
  right. reflexivity.
Defined.

Lemma read_error_leaves_data_untouched_witness :
  fst (readOf (Some [db1]) (request [Some openClassFilter]))
  = request [Some openClassFilter].
Proof.
  apply (read_error_leaves_data_untouched Regexp.MatchString okUserAgent okProject
           (listReturns (Some [db1])) notFoundAsError plainQuote
           (request [Some openClassFilter])
           (fst (readOf (Some [db1]) (request [Some openClassFilter])))
           "Invalid regex [").
  - intros userAgent project. reflexivity.
  - reflexivity.
Defined.

Lemma absence_check_decides_witness :
  checkDatabaseResourceAbsentInDataSourceAfterFilterApllied
    nameFilterDataSource (databaseResource db2) = None.
Proof.
  apply (proj1 (proj2 (proj2 (absence_check_decides nameFilterDataSource
                                (databaseResource db2))) 1%Z eq_refl)).
  intros i Hi. assert (i = 0%Z) as -> by lia. vm_compute. discriminate.
Defined.

Lemma absent_and_matching_exclude_each_other_witness :
  checkDatabaseResourceAbsentInDataSourceAfterFilterApllied
    nameFilterDataSource (databaseResource db1) = Some presentMessage.
Proof.
  apply (proj2 (absent_and_matching_exclude_each_other nameFilterDataSource
                  (databaseResource db1) basicIgnores
                  (map_to_list (databaseResource db1)))).
  vm_compute. reflexivity.
Defined.

Lemma findIndex_is_last_match_witness :
  findIndex basicDataSource (databaseResource pgDb2) 2 = Itoa 1
  ∧ findIndex basicDataSource (databaseResource pgDb2) 2 ≠ "-1".
Proof.
  apply (findIndex_is_last_match basicDataSource (databaseResource pgDb2) 2 1).
  - lia.
  - reflexivity.
  - intros j Hj. lia.
Defined.

Lemma field_check_ignores_other_keys_witness :
  checkDatabaseFieldsMatchForDataSourceStateAndResourceState
    (<["databases.0.etag" := "abc"]> nameFilterDataSource) (databaseResource db1)
    basicIgnores (map_to_list (databaseResource db1))
  = checkDatabaseFieldsMatchForDataSourceStateAndResourceState
      nameFilterDataSource (databaseResource db1)
      basicIgnores (map_to_list (databaseResource db1)).
Proof.
  apply (field_check_ignores_other_keys nameFilterDataSource (databaseResource db1)
           basicIgnores (map_to_list (databaseResource db1)) 1).
  - reflexivity.
  - reflexivity.
  - discriminate.
  - intros i Hi. assert (i = 0%Z) as -> by lia. vm_compute. discriminate.
  - intros k [v Hk].
    replace (findIndex nameFilterDataSource (databaseResource db1) 1) with "0"
      by (vm_compute; reflexivity).
    apply elem_of_map_to_list in Hk. vm_compute in Hk.
    repeat (apply elem_of_cons in Hk as [Hk|Hk];
            [injection Hk as -> _; vm_compute; discriminate|]).
    by apply elem_of_nil in Hk.
Defined.

Lemma field_check_outcome_independent_of_order_witness :
  checkDatabaseFieldsMatchForDataSourceStateAndResourceState
    nameFilterDataSource (databaseResource db1) basicIgnores
    (map_to_list (databaseResource db1)) = Returns None
  ↔ checkDatabaseFieldsMatchForDataSourceStateAndResourceState
      nameFilterDataSource (databaseResource db1) basicIgnores
      (reverse (map_to_list (databaseResource db1))) = Returns None.
Proof.
  apply (field_check_outcome_independent_of_order nameFilterDataSource
           (databaseResource db1) basicIgnores
           (map_to_list (databaseResource db1))
           (reverse (map_to_list (databaseResource db1)))).
  symmetry. apply reverse_Permutation.
Defined.

Lemma basicState_resource (rsAttr : gmap string string) :
  basicState !! "google_sql_database.db1" = Some rsAttr →
  map_to_list (databaseResource pgDb1) ≡ₚ map_to_list rsAttr.
Proof.
  assert (basicState !! "google_sql_database.db1" = Some (databaseResource pgDb1)) as ->
    by reflexivity.
  by intros [= <-].
Qed.

Lemma basicState_resource2 (rsAttr : gmap string string) :
  basicState !! "google_sql_database.db2" = Some rsAttr →
  map_to_list (databaseResource pgDb2) ≡ₚ map_to_list rsAttr.
Proof.
  assert (basicState !! "google_sql_database.db2" = Some (databaseResource pgDb2)) as ->
    by reflexivity.
  by intros [= <-].
Qed.

Lemma nameFilterState_resource (rsAttr : gmap string string) :
  nameFilterState !! "google_sql_database.db1" = Some rsAttr →
  map_to_list (databaseResource db1) ≡ₚ map_to_list rsAttr.
Proof.
  assert (nameFilterState !! "google_sql_database.db1" = Some (databaseResource db1)) as ->
    by reflexivity.
  by intros [= <-].
Qed.

Lemma basic_check_sound_witness :
  ∃ n, Atoi (get basicDataSource "databases.#") = Some n ∧ (2 ≤ n)%Z.
Proof.
  destruct (basic_check_sound "data.google_sql_databases.qa"
              "google_sql_database.db1" "google_sql_database.db2" basicIgnores
              (map_to_list (databaseResource pgDb1))
              (map_to_list (databaseResource pgDb2)) basicState
              basicState_resource basicState_resource2)
    as (dsAttr & rsAttr & rsAttr2 & n & i & i2 & Hds & Hrs & Hrs2 & Hn & _ & _ & _ & _
        & _ & _ & Hdiff).
  - vm_compute. reflexivity.
  - assert (dsAttr = basicDataSource) as -> by (by injection Hds).
    assert (rsAttr = databaseResource pgDb1) as -> by (by injection Hrs).
    assert (rsAttr2 = databaseResource pgDb2) as -> by (by injection Hrs2).
    exists n. split; [exact Hn|]. apply Hdiff. vm_compute. discriminate.
Defined.

Lemma applied_filter_check_sound_witness :
  "google_sql_database.db2" ≠ "google_sql_database.db1".
Proof.
  destruct (applied_filter_check_sound "data.google_sql_databases.qa"
              "google_sql_database.db2" "google_sql_database.db1" basicIgnores
              (map_to_list (databaseResource db1)) nameFilterState
              nameFilterState_resource)
    as (dsAttr & rsAttr & rsAttr2 & n & i2 & _ & _ & _ & _ & _ & _ & _ & _ & _ & Hne).
  - vm_compute. reflexivity.
  - exact Hne.
Defined.


Lemma field_check_accepts_listed_record_witness :
  checkDatabaseFieldsMatchForDataSourceStateAndResourceState
    basicDataSource (databaseResource pgDb2) basicIgnores
    (map_to_list (databaseResource pgDb2)) = Returns None.
Proof.
  apply (field_check_accepts_listed_record basicDataSource (databaseResource pgDb2)
           [pgDb1; pgDb2] basicIgnores (map_to_list (databaseResource pgDb2)) 1 pgDb2).
  - apply basicDataSource_lists.
  - simpl. lia.
  - reflexivity.
  - intros [|[|j]] d' Hj E; simpl in Hj; [|done|done].
    injection Hj as <-. discriminate E.
  - reflexivity.
  - apply databaseResource_describes.
Defined.

Lemma absence_check_accepts_unlisted_name_witness :
  checkDatabaseResourceAbsentInDataSourceAfterFilterApllied
    nameFilterDataSource (databaseResource db2) = None.
Proof.
  apply (absence_check_accepts_unlisted_name nameFilterDataSource
           (databaseResource db2) [db1]).
  - apply nameFilterDataSource_lists.
  - simpl. lia.
  - intros d Hd. apply list_elem_of_singleton in Hd. subst d. vm_compute. discriminate.
Defined.

Lemma names_distinct : NoDup (Name <$> [db1; db2; db3]).
Proof.
  apply NoDup_cons. split; [|apply NoDup_cons; split; [|apply NoDup_singleton]].
  - intros H. apply elem_of_cons in H as [H|H]; [discriminate H|].
    apply list_elem_of_singleton in H. discriminate H.
  - intros H. apply list_elem_of_singleton in H. discriminate H.
Qed.

Lemma applied_filter_check_accepts_filter_output_witness :
  checkDatabaseListDataSourceStateMatchesResourceStateWithIgnoresForAppliedFilter
    "data.google_sql_databases.qa" "google_sql_database.db2" "google_sql_database.db1"
    basicIgnores (map_to_list (databaseResource db1)) nameFilterState
  = Returns None.
Proof.
  apply (applied_filter_check_accepts_filter_output Regexp.MatchString
           (Some [db1; db2; db3]) (Some [db1]) [Some nameFilter]
           "data.google_sql_databases.qa" "google_sql_database.db2"
           "google_sql_database.db1" basicIgnores (map_to_list (databaseResource db1))
           nameFilterState nameFilterDataSource (databaseResource db2)
           (databaseResource db1) db2 db1).
  - reflexivity.
  - apply names_distinct.
  - simpl. lia.
  - reflexivity.
  - reflexivity.
  - reflexivity.
  - apply nameFilterDataSource_lists.
  - right. left.
  - reflexivity.
  - reflexivity.
  - left.
  - reflexivity.
  - apply databaseResource_describes.
  - reflexivity.
Defined.

Lemma basic_check_accepts_listed_records_witness :
  checkDatabasesListDataSourceStateMatchesResourceStateWithIgnores
    "data.google_sql_databases.qa" "google_sql_database.db1" "google_sql_database.db2"
    basicIgnores (map_to_list (databaseResource pgDb1))
    (map_to_list (databaseResource pgDb2)) basicState
  = Returns None.
Proof.
  apply (basic_check_accepts_listed_records
           "data.google_sql_databases.qa" "google_sql_database.db1"
           "google_sql_database.db2" basicIgnores
           (map_to_list (databaseResource pgDb1)) (map_to_list (databaseResource pgDb2))
           basicState basicDataSource (databaseResource pgDb1) (databaseResource pgDb2)
           [pgDb1; pgDb2] pgDb1 pgDb2).
  - apply basicDataSource_lists.
  - simpl. lia.
  - apply NoDup_cons. split; [|apply NoDup_singleton].
    intros H. apply list_elem_of_singleton in H. discriminate H.
  - reflexivity.
  - reflexivity.
  - reflexivity.
  - left.
  - apply databaseResource_describes.
  - reflexivity.
  - right. left.
  - apply databaseResource_describes.
  - reflexivity.
Defined.

(** The order of the clauses can decide whether the filter fails: a clause on
    an unknown field is harmless behind a clause that excludes the record,
    and fatal in front of it. *)
Example clause_order_decides_failure :
  applyFilterOnDatabases Regexp.MatchString (Some [db1])
    [Some excludeOneFilter; Some unknownFieldFilter] = (Some [], None)
  ∧ applyFilterOnDatabases Regexp.MatchString (Some [db1])
      [Some unknownFieldFilter; Some excludeOneFilter] = (Some [], Some "Invalid filter").
Proof. split; reflexivity. Qed.
